(** * Text metrics of [src/textUtils.js]: [wordCount], [charCount], [readingTime]

    The three functions are embedded over a small model of the JavaScript
    built-ins they call: [String.prototype.trim], [String.prototype.split]
    and [String.prototype.replace] with a regular-expression argument,
    [Math.ceil], and the truthiness test [!text].

    - An argument is a string, [undefined] or [null]: the inputs the
      specification gives the functions.
    - A string is the list of its UTF-16 code units, numbers below 2^16;
      nothing below depends on that bound, so it is not imposed.
    - A regular expression is an object on a heap: its [lastIndex] is
      mutable and the built-ins read and write it, so every function runs
      in a state-and-exception monad over that heap.
    - A number is an integer ([Z]) wherever the code holds a length, and
      the quotient [words / 200] is an exact rational; see [Math_ceil].
    - [split] is called without a limit, so its limit is 2^32 - 1 pieces.
      Engines cap the length of a string below that (V8 at 2^29 - 24 or
      2^30 - 25 code units, SpiderMonkey at 2^30 - 2, JavaScriptCore at
      2^31 - 1), so the limit is never reached and is left out.
    - The loops of the built-ins run on a bound taken from the length of
      the string; [functions_total] shows that no bound is ever reached. *)

From Stdlib Require Import ZArith QArith Qround Lqa String Ascii.
From Stdlib Require Import Floats.SpecFloat.
From stdpp Require Import base decidable option list list_numbers.

Local Open Scope nat_scope.

(** ** Strings *)

(** A string is the list of its UTF-16 code units. *)
Abbreviation code_unit := N (only parsing).
Abbreviation jsstring := (list N).

(** The characters matched by [\s] and removed by [trim]: the WhiteSpace
    and LineTerminator productions of ECMAScript. *)
Definition is_ws (c : code_unit) : bool :=
  ((9 <=? c) && (c <=? 13)            (* TAB, LF, VT, FF, CR *)
   || (c =? 32)                       (* SPACE *)
   || (c =? 160)                      (* NO-BREAK SPACE *)
   || (c =? 5760)                     (* OGHAM SPACE MARK *)
   || (8192 <=? c) && (c <=? 8202)    (* EN QUAD .. HAIR SPACE *)
   || (c =? 8232) || (c =? 8233)      (* LINE and PARAGRAPH SEPARATOR *)
   || (c =? 8239)                     (* NARROW NO-BREAK SPACE *)
   || (c =? 8287)                     (* MEDIUM MATHEMATICAL SPACE *)
   || (c =? 12288)                    (* IDEOGRAPHIC SPACE *)
   || (c =? 65279))%N.                (* ZERO WIDTH NO-BREAK SPACE *)

(** String literals of the tests, as code units. *)
Fixpoint js (s : string) : jsstring :=
  match s with
  | EmptyString => []
  | String a s' => N_of_ascii a :: js s'
  end.

Definition TAB : code_unit := 9%N.
Definition LF : code_unit := 10%N.
Definition SPACE : code_unit := 32%N.

Definition substring (str : jsstring) (from to : nat) : jsstring :=
  take (to - from) (drop from str).

Fixpoint jsstring_eqb (a b : jsstring) : bool :=
  match a, b with
  | [], [] => true
  | x :: a', y :: b' => (x =? y)%N && jsstring_eqb a' b'
  | _, _ => false
  end.

(** [String.prototype.trim]: white space removed from both ends. *)
Fixpoint trim_start (s : jsstring) : jsstring :=
  match s with
  | [] => []
  | c :: s' => if is_ws c then trim_start s' else s
  end.

Definition trim_end (s : jsstring) : jsstring := rev (trim_start (rev s)).

Definition trim (s : jsstring) : jsstring := trim_end (trim_start s).

(** ** Values, completions and the heap of regular expressions *)

Inductive value :=
| VUndefined
| VNull
| VString (s : jsstring).

Inductive error :=
| TypeError   (* a method called on undefined or null *)
| Stuck.      (* the model left its bounds: a loop bound or a dangling reference *)

Inductive completion (A : Type) :=
| Normal (a : A)
| Throw (e : error).
Arguments Normal {A} a.
Arguments Throw {A} e.

Inductive pattern :=
| pat_s        (* \s  *)
| pat_s_plus.  (* \s+ *)

Record regexp := RegExp {
  re_source : pattern;
  re_global : bool;
  re_sticky : bool;
  re_lastIndex : nat
}.

(** A location is an index into the heap. *)
Abbreviation loc := nat (only parsing).
Abbreviation heap := (list regexp) (only parsing).

Definition M (A : Type) : Type := heap -> completion A * heap.

Definition ret {A} (a : A) : M A := fun h => (Normal a, h).

Definition throw {A} (e : error) : M A := fun h => (Throw e, h).

Definition bind {A B} (m : M A) (k : A -> M B) : M B :=
  fun h =>
    match m h with
    | (Normal a, h') => k a h'
    | (Throw e, h') => (Throw e, h')
    end.

Notation "x <- m ;; k" := (bind m (fun x => k))
  (at level 100, m at next level, right associativity).
Notation "m ;;; k" := (bind m (fun _ => k))
  (at level 100, right associativity).

(** The value an invocation returns, started on heap [h]. *)
Definition result {A} (m : M A) (h : heap) : completion A := fst (m h).

(** The heap an invocation leaves. *)
Definition final_heap {A} (m : M A) (h : heap) : heap := snd (m h).

(** A regular-expression literal evaluates to a new object each time. *)
Definition RegExpCreate (p : pattern) (g y : bool) : M loc :=
  fun h => (Normal (length h), h ++ [RegExp p g y 0]).

Definition GetRegExp (R : loc) : M regexp :=
  fun h =>
    match h !! R with
    | Some r => (Normal r, h)
    | None => (Throw Stuck, h)
    end.

Definition GetLastIndex (R : loc) : M nat :=
  r <- GetRegExp R ;; ret (re_lastIndex r).

Definition with_lastIndex (r : regexp) (i : nat) : regexp :=
  RegExp (re_source r) (re_global r) (re_sticky r) i.

Definition SetLastIndex (R : loc) (i : nat) : M unit :=
  fun h =>
    match h !! R with
    | Some r => (Normal tt, <[R := with_lastIndex r i]> h)
    | None => (Throw Stuck, h)
    end.

(** ** Matching *)

(** Length of the white-space run at the head of [s]. *)
Fixpoint ws_run (s : jsstring) : nat :=
  match s with
  | [] => 0
  | c :: s' => if is_ws c then S (ws_run s') else 0
  end.

(** The matcher of a pattern, tried at index [i] of [str] only: the end index
    of the match. [\s+] is greedy and nothing follows it, so it takes the
    whole run. *)
Definition match_at (p : pattern) (str : jsstring) (i : nat) : option nat :=
  match str !! i with
  | Some c =>
      if is_ws c then
        match p with
        | pat_s => Some (i + 1)
        | pat_s_plus => Some (i + 1 + ws_run (drop (i + 1) str))
        end
      else None
  | None => None
  end.

Record MatchRecord := Match {
  m_index : nat;          (* the [index] property *)
  m_matched : jsstring    (* element 0: the matched substring *)
}.

(** RegExpBuiltinExec. Each turn of its loop advances [lastIndex], and the
    loop ends once [lastIndex] passes the length of [str]. *)
Fixpoint exec_loop (fuel : nat) (R : loc) (r : regexp) (str : jsstring)
    (lastIndex : nat) : M (option MatchRecord) :=
  match fuel with
  | 0 => throw Stuck
  | S fuel' =>
      if length str <? lastIndex then
        (if re_global r || re_sticky r then SetLastIndex R 0 else ret tt) ;;;
        ret None
      else
        match match_at (re_source r) str lastIndex with
        | None =>
            if re_sticky r then SetLastIndex R 0 ;;; ret None
            else exec_loop fuel' R r str (lastIndex + 1)
        | Some e =>
            (if re_global r || re_sticky r then SetLastIndex R e else ret tt) ;;;
            ret (Some (Match lastIndex (substring str lastIndex e)))
        end
  end.

Definition RegExpBuiltinExec (R : loc) (str : jsstring) : M (option MatchRecord) :=
  r <- GetRegExp R ;;
  let lastIndex := if re_global r || re_sticky r then re_lastIndex r else 0 in
  exec_loop (length str + 2) R r str lastIndex.

(** ** The string methods

    [RegExp.prototype[Symbol.split]]: the pieces of [str] between the
    matches of the pattern. The splitter is a copy of the regular expression
    with the sticky flag added; [p] is the start of the current piece and
    [q] the index the splitter is tried at. *)
Fixpoint split_loop (fuel : nat) (splitter : loc) (str : jsstring)
    (p q : nat) (A : list jsstring) : M (list jsstring) :=
  match fuel with
  | 0 => throw Stuck
  | S fuel' =>
      if q <? length str then
        SetLastIndex splitter q ;;;
        z <- RegExpBuiltinExec splitter str ;;
        match z with
        | None => split_loop fuel' splitter str p (q + 1) A
        | Some _ =>
            e0 <- GetLastIndex splitter ;;
            let e := Nat.min e0 (length str) in
            if e =? p then split_loop fuel' splitter str p (q + 1) A
            else split_loop fuel' splitter str e e (A ++ [substring str p q])
        end
      else ret (A ++ [substring str p (length str)])
  end.

Definition RegExp_split (rx : loc) (str : jsstring) : M (list jsstring) :=
  r <- GetRegExp rx ;;
  splitter <- RegExpCreate (re_source r) (re_global r) true ;;
  if length str =? 0 then
    z <- RegExpBuiltinExec splitter str ;;
    ret (match z with Some _ => [] | None => [str] end)
  else split_loop (length str + 1) splitter str 0 0 [].

(** [RegExp.prototype[Symbol.replace]] with a replacement text that holds
    no [$]: first the matches are collected, then the result is put
    together from the text between them. *)
Fixpoint replace_collect (fuel : nat) (rx : loc) (global : bool)
    (str : jsstring) (results : list MatchRecord) : M (list MatchRecord) :=
  match fuel with
  | 0 => throw Stuck
  | S fuel' =>
      z <- RegExpBuiltinExec rx str ;;
      match z with
      | None => ret results
      | Some m =>
          if negb global then ret (results ++ [m])
          else
            (if length (m_matched m) =? 0 then
               thisIndex <- GetLastIndex rx ;; SetLastIndex rx (thisIndex + 1)
             else ret tt) ;;;
            replace_collect fuel' rx global str (results ++ [m])
      end
  end.

Definition replace_step (str replacement : jsstring)
    (acc : jsstring * nat) (m : MatchRecord) : jsstring * nat :=
  let '(accumulatedResult, nextSourcePosition) := acc in
  let position := Nat.min (m_index m) (length str) in
  if nextSourcePosition <=? position then
    (accumulatedResult ++ substring str nextSourcePosition position ++ replacement,
     position + length (m_matched m))
  else acc.

Definition replace_assemble (str replacement : jsstring)
    (results : list MatchRecord) : jsstring :=
  let '(accumulatedResult, nextSourcePosition) :=
    foldl (replace_step str replacement) ([], 0) results in
  if length str <=? nextSourcePosition then accumulatedResult
  else accumulatedResult ++ substring str nextSourcePosition (length str).

Definition RegExp_replace (rx : loc) (str replaceValue : jsstring) : M jsstring :=
  r <- GetRegExp rx ;;
  (if re_global r then SetLastIndex rx 0 else ret tt) ;;;
  results <- replace_collect (length str + 2) rx (re_global r) str [] ;;
  ret (replace_assemble str replaceValue results).

(** A method call [v.m(...)]: undefined and null have no properties. *)
Definition this_string (v : value) : M jsstring :=
  match v with
  | VString s => ret s
  | VUndefined | VNull => throw TypeError
  end.

Definition String_trim (v : value) : M jsstring :=
  s <- this_string v ;; ret (trim s).

Definition String_split (v : value) (separator : loc) : M (list jsstring) :=
  s <- this_string v ;; RegExp_split separator s.

Definition String_replace (v : value) (searchValue : loc)
    (replaceValue : jsstring) : M jsstring :=
  s <- this_string v ;; RegExp_replace searchValue s replaceValue.

Definition ToBoolean (v : value) : bool :=
  match v with
  | VUndefined | VNull => false
  | VString s => negb (length s =? 0)
  end.

(** [Math.ceil] of a quotient of two integers. The code divides in double
    precision. For a dividend below 2^53 and the divisor 200 the rounded
    quotient lies on the same side of every integer as the exact one: an
    exact quotient that is not an integer is at least 1/200 away from the
    integer below it, and doubles below 2^46 are at most 2^-7 apart. So the
    quotient is taken exactly, in [Q]; [Math_ceil_rounded] has the argument
    and [Math_ceil_as_in_binary64] the check on binary64 itself. *)
Definition Math_ceil (x : Q) : Z := Qceiling x.

(** The same computation in binary64, to check the exact quotient against:
    the double nearest to an integer, the division of doubles, and the
    least integer not below a finite double. *)
Definition binary64_of_Z (n : Z) : spec_float := binary_normalize 53 1024 n 0 false.

Definition binary64_div (x y : spec_float) : spec_float := SFdiv 53 1024 x y.

Definition binary64_ceil (x : spec_float) : option Z :=
  match x with
  | S754_zero _ => Some 0%Z
  | S754_finite s m e =>
      let v := if s then Zneg m else Zpos m in
      Some (match e with
            | Zneg k => - ((- v) / 2 ^ Zpos k)
            | _ => v * 2 ^ e
            end)%Z
  | S754_infinity _ | S754_nan => None
  end.

Definition ceil_agrees (n : Z) : bool :=
  match binary64_ceil (binary64_div (binary64_of_Z n) (binary64_of_Z 200)) with
  | Some m => (m =? Math_ceil (inject_Z n / inject_Z 200))%Z
  | None => false
  end.

(** ** The three functions of [src/textUtils.js] *)

Definition wordCount (text : value) : M Z :=
  c <- (if negb (ToBoolean text) then ret true
        else t <- String_trim text ;; ret (jsstring_eqb t [])) ;;
  if c then ret 0%Z
  else
    t <- String_trim text ;;
    re <- RegExpCreate pat_s_plus false false ;;
    A <- String_split (VString t) re ;;
    ret (Z.of_nat (length A)).

Definition charCount (text : value) : M Z :=
  if negb (ToBoolean text) then ret 0%Z
  else
    re <- RegExpCreate pat_s true false ;;
    t <- String_replace text re [] ;;
    ret (Z.of_nat (length t)).

Definition readingTime (text : value) : M Z :=
  let WORDS_PER_MINUTE := 200%Z in
  words <- wordCount text ;;
  ret (Math_ceil (inject_Z words / inject_Z WORDS_PER_MINUTE)).

(** [String.prototype.repeat], which the tests build their texts with. *)
Fixpoint String_repeat (s : jsstring) (count : nat) : jsstring :=
  match count with
  | 0 => []
  | S n => s ++ String_repeat s n
  end.

(** ** What the built-ins compute, on lists *)

(** The pieces [split] returns for the pattern [\s+]: [cur] is the piece
    being read, [skipping] tells that a white-space run is being passed. *)
Fixpoint split_pieces (cur : jsstring) (skipping : bool) (s : jsstring)
    : list jsstring :=
  match s with
  | [] => [cur]
  | c :: s' =>
      if is_ws c then
        if skipping then split_pieces [] true s'
        else cur :: split_pieces [] true s'
      else split_pieces (cur ++ [c]) false s'
  end.

(** The text [replace] leaves for the pattern [\s] (global) and the empty
    replacement. *)
Fixpoint remove_ws (s : jsstring) : jsstring :=
  match s with
  | [] => []
  | c :: s' => if is_ws c then remove_ws s' else c :: remove_ws s'
  end.

(** The matches [replace] collects from index [i] on, [s] being the text
    from [i]. *)
Fixpoint ws_matches (i : nat) (s : jsstring) : list MatchRecord :=
  match s with
  | [] => []
  | c :: s' =>
      if is_ws c then Match i [c] :: ws_matches (S i) s'
      else ws_matches (S i) s'
  end.

(** Offset of the first white-space character. *)
Fixpoint find_ws (s : jsstring) : option nat :=
  match s with
  | [] => None
  | c :: s' => if is_ws c then Some 0 else S <$> find_ws s'
  end.

Definition all_ws (s : jsstring) : bool := forallb is_ws s.

Definition no_ws (s : jsstring) : bool := forallb (fun c => negb (is_ws c)) s.

(** Whether [s] ends in white space; [prev] answers for the empty text. *)
Fixpoint ends_ws (prev : bool) (s : jsstring) : bool :=
  match s with
  | [] => prev
  | c :: s' => ends_ws (is_ws c) s'
  end.

(** The array [wordCount] takes the length of; empty where it returns 0
    before splitting. *)
Definition words (s : jsstring) : list jsstring :=
  if jsstring_eqb (trim s) [] then [] else split_pieces [] false (trim s).

Definition words_of (text : value) : list jsstring :=
  match text with
  | VString s => words s
  | VUndefined | VNull => []
  end.

Definition chars_of (text : value) : jsstring :=
  match text with
  | VString s => remove_ws s
  | VUndefined | VNull => []
  end.

(** ** The notions of the specification *)

(** The maximal runs of characters that are not white space, in order;
    [cur] is the run being read. *)
Fixpoint runs_from (cur : jsstring) (s : jsstring) : list jsstring :=
  match s with
  | [] => match cur with [] => [] | _ => [cur] end
  | c :: s' =>
      if is_ws c then
        match cur with
        | [] => runs_from [] s'
        | _ => cur :: runs_from [] s'
        end
      else runs_from (cur ++ [c]) s'
  end.

Definition maximal_runs (s : jsstring) : list jsstring := runs_from [] s.

(** Index [i] is where a maximal run starts: the character there is not
    white space, and it is the first one or follows white space. [prev]
    tells whether white space is taken to precede index 0. *)
Definition starts_run (prev : bool) (s : jsstring) (i : nat) : bool :=
  match s !! i with
  | Some c =>
      negb (is_ws c) &&
      match i with
      | 0 => prev
      | S j => match s !! j with Some d => is_ws d | None => false end
      end
  | None => false
  end.

Definition run_starts (s : jsstring) : list nat :=
  List.filter (starts_run true s) (seq 0 (length s)).

(** The procedure of the specification: trim, collapse every run of white
    space into one separator, count the tokens that are not empty. *)
Fixpoint collapse (in_run : bool) (s : jsstring) : jsstring :=
  match s with
  | [] => []
  | c :: s' =>
      if is_ws c then
        if in_run then collapse true s' else SPACE :: collapse true s'
      else c :: collapse false s'
  end.

Fixpoint tokens_between (cur : jsstring) (s : jsstring) : list jsstring :=
  match s with
  | [] => [cur]
  | c :: s' =>
      if (c =? SPACE)%N then cur :: tokens_between [] s'
      else tokens_between (cur ++ [c]) s'
  end.

Definition nonempty (t : jsstring) : bool := negb (length t =? 0).

Definition count_tokens (s : jsstring) : nat :=
  length (List.filter nonempty (tokens_between [] (collapse false (trim s)))).

(** The number of characters that are not white space. *)
Fixpoint count_non_ws (s : jsstring) : nat :=
  match s with
  | [] => 0
  | c :: s' => if is_ws c then count_non_ws s' else S (count_non_ws s')
  end.

(** Punctuation: the ASCII marks, the dashes, quotation marks and bullets
    U+2010 to U+2027, and the ideographic comma, full stop and ditto mark. *)
Definition is_punct (c : code_unit) : bool :=
  ((33 <=? c) && (c <=? 47) || (58 <=? c) && (c <=? 64)
   || (91 <=? c) && (c <=? 96) || (123 <=? c) && (c <=? 126)
   || (8208 <=? c) && (c <=? 8231)
   || (12289 <=? c) && (c <=? 12291))%N.

Definition HYPHEN : code_unit := 45%N.

(** [m] is the ceiling of [n / d]: the least integer not below it. *)
Definition is_ceiling_of_quotient (m n d : Z) : Prop :=
  (n <= m * d /\ forall m', n <= m' * d -> m <= m')%Z.

(** ** The expressions inside the functions, and the texts of the tests *)

(** [text.split(/\s+/)], the expression [wordCount] applies to the trimmed
    text. *)
Definition split_on_whitespace (text : value) : M (list jsstring) :=
  re <- RegExpCreate pat_s_plus false false ;; String_split text re.

(** [text.replace(/\s/g, '')], the expression [charCount] measures. *)
Definition remove_whitespace (text : value) : M jsstring :=
  re <- RegExpCreate pat_s true false ;; String_replace text re [].

(** ['word '.repeat(n).trim()], the text the tests of [readingTime] build. *)
Definition words_text (n : nat) : jsstring := trim (String_repeat (js "word ") n).

Definition starts_ws (s : jsstring) : bool :=
  match s with
  | c :: _ => is_ws c
  | [] => false
  end.

(** [s] is not empty and starts, or ends, with a character that is not
    white space. *)
Definition starts_word (s : jsstring) : bool :=
  match s with
  | c :: _ => negb (is_ws c)
  | [] => false
  end.

Definition ends_word (s : jsstring) : bool := negb (ends_ws true s).

(** ** Lists and substrings *)

Section Substrings.
Implicit Types (s str : jsstring) (c : code_unit).

Lemma drop_lookup_cons str i c :
  str !! i = Some c -> drop i str = c :: drop (i + 1) str.
Proof.
  intros H. rewrite Nat.add_1_r. by apply drop_S.
Qed.

Lemma substring_same str i : substring str i i = [].
Proof. unfold substring. by rewrite Nat.sub_diag. Qed.

Lemma substring_snoc str p q c :
  p <= q -> str !! q = Some c ->
  substring str p (q + 1) = substring str p q ++ [c].
Proof.
  intros Hpq Hq. unfold substring.
  replace (q + 1 - p) with (S (q - p)) by lia.
  rewrite (take_S_r _ _ c); [done|].
  rewrite lookup_drop. by replace (p + (q - p)) with q by lia.
Qed.

Lemma substring_to_end str p n :
  length str <= n -> substring str p n = drop p str.
Proof.
  intros H. unfold substring. apply take_ge. rewrite length_drop. lia.
Qed.

Lemma substring_one str i c :
  str !! i = Some c -> substring str i (i + 1) = [c].
Proof.
  intros H. rewrite (substring_snoc _ _ _ c) by (lia || done).
  by rewrite substring_same.
Qed.

Lemma ws_run_le s : ws_run s <= length s.
Proof. induction s as [|c s IH]; simpl; [lia|]. destruct (is_ws c); simpl; lia. Qed.

Lemma jsstring_eqb_nil s : jsstring_eqb s [] = true <-> s = [].
Proof. destruct s; simpl; split; congruence. Qed.
End Substrings.

(** ** Running the heap operations *)

Section Heap.
Implicit Types (h : heap) (R : loc) (r : regexp).

Lemma bind_run {A B} (m : M A) (k : A -> M B) h a h' :
  m h = (Normal a, h') -> bind m k h = k a h'.
Proof. intros H. unfold bind. by rewrite H. Qed.

Lemma with_lastIndex_twice r i j :
  with_lastIndex (with_lastIndex r i) j = with_lastIndex r j.
Proof. done. Qed.

Lemma with_lastIndex_same r : with_lastIndex r (re_lastIndex r) = r.
Proof. by destruct r. Qed.

Lemma GetRegExp_run h R r : h !! R = Some r -> GetRegExp R h = (Normal r, h).
Proof. intros H. unfold GetRegExp. by rewrite H. Qed.

Lemma GetLastIndex_run h R r :
  h !! R = Some r -> GetLastIndex R h = (Normal (re_lastIndex r), h).
Proof.
  intros H. unfold GetLastIndex. by rewrite (bind_run _ _ _ _ _ (GetRegExp_run _ _ _ H)).
Qed.

Lemma SetLastIndex_run h R r i :
  h !! R = Some r ->
  SetLastIndex R i h = (Normal tt, <[R := with_lastIndex r i]> h).
Proof. intros H. unfold SetLastIndex. by rewrite H. Qed.

Lemma lookup_set h R r x : h !! R = Some r -> <[R := x]> h !! R = Some x.
Proof. intros H. apply list_lookup_insert_eq. by eapply lookup_lt_Some. Qed.

Lemma RegExpCreate_run h p g y :
  RegExpCreate p g y h = (Normal (length h), h ++ [RegExp p g y 0]).
Proof. done. Qed.

Lemma lookup_created h r : (h ++ [r]) !! length h = Some r.
Proof. by apply list_lookup_middle. Qed.

Lemma set_created h r x : <[length h := x]> (h ++ [r]) = h ++ [x].
Proof.
  replace (length h) with (length h + 0) at 1 by lia.
  by rewrite insert_app_r.
Qed.
End Heap.

(** ** RegExpBuiltinExec on the two kinds of regular expression in use *)

Section Exec.
Implicit Types (h : heap) (R : loc) (r : regexp) (str : jsstring).

(** A sticky regular expression is tried at [lastIndex] only. *)
Lemma exec_sticky h R r str :
  h !! R = Some r -> re_sticky r = true -> re_lastIndex r <= length str ->
  RegExpBuiltinExec R str h =
    match match_at (re_source r) str (re_lastIndex r) with
    | None => (Normal None, <[R := with_lastIndex r 0]> h)
    | Some e =>
        (Normal (Some (Match (re_lastIndex r) (substring str (re_lastIndex r) e))),
         <[R := with_lastIndex r e]> h)
    end.
Proof.
  intros HR Hy Hle. unfold RegExpBuiltinExec.
  rewrite (bind_run _ _ _ _ _ (GetRegExp_run _ _ _ HR)).
  rewrite Hy, orb_true_r. replace (length str + 2) with (S (length str + 1)) by lia.
  simpl. rewrite Hy, orb_true_r.
  destruct (Nat.ltb_spec (length str) (re_lastIndex r)) as [?|_]; [lia|].
  destruct (match_at _ _ _) as [e|].
  - by rewrite (bind_run _ _ _ _ _ (SetLastIndex_run _ _ _ e HR)).
  - by rewrite (bind_run _ _ _ _ _ (SetLastIndex_run _ _ _ 0 HR)).
Qed.

(** A global regular expression for [\s] finds the first white-space
    character from index [i] on and leaves [lastIndex] just after it. *)
Lemma exec_loop_global fuel h R r0 r str i :
  h !! R = Some r0 ->
  re_source r = pat_s -> re_global r = true -> re_sticky r = false ->
  i <= length str -> length str + 1 - i < fuel ->
  exec_loop fuel R r str i h =
    match find_ws (drop i str) with
    | None => (Normal None, <[R := with_lastIndex r0 0]> h)
    | Some d =>
        (Normal (Some (Match (i + d) (substring str (i + d) (i + d + 1)))),
         <[R := with_lastIndex r0 (i + d + 1)]> h)
    end.
Proof.
  intros HR Hp Hg Hy. revert i.
  induction fuel as [|fuel IH]; intros i Hi Hfuel; [lia|].
  simpl. rewrite Hg, Hy, Hp. simpl.
  destruct (Nat.ltb_spec (length str) i) as [?|_]; [lia|].
  unfold match_at. destruct (str !! i) as [c|] eqn:Hc.
  - rewrite (drop_lookup_cons _ _ _ Hc). simpl.
    destruct (is_ws c) eqn:Hws.
    + rewrite (bind_run _ _ _ _ _ (SetLastIndex_run _ _ _ (i + 1) HR)).
      rewrite Nat.add_0_r. done.
    + apply lookup_lt_Some in Hc as Hlt.
      rewrite IH by lia.
      destruct (find_ws (drop (i + 1) str)) as [d|]; simpl; [|done].
      by replace (i + 1 + d) with (i + S d) by lia.
  - apply lookup_ge_None in Hc as Hge.
    rewrite (drop_ge _ _ Hge). simpl.
    assert (i = length str) as -> by lia.
    destruct fuel as [|fuel']; [lia|]. simpl. rewrite Hg. simpl.
    destruct (Nat.ltb_spec (length str) (length str + 1)) as [_|?]; [|lia].
    by rewrite (bind_run _ _ _ _ _ (SetLastIndex_run _ _ _ 0 HR)).
Qed.
End Exec.

(** ** [split] on [\s+] *)

Section Split.
Implicit Types (h : heap) (r : regexp) (str s : jsstring).

(** Passing a white-space run one character at a time, or at once. *)
Lemma split_pieces_skip s :
  split_pieces [] true s = split_pieces [] false (drop (ws_run s) s).
Proof.
  induction s as [|c s IH]; simpl; [done|].
  destruct (is_ws c) eqn:Hc; simpl; [done|]. by rewrite Hc.
Qed.

Lemma split_loop_run fuel h0 sp r str p q A k :
  h0 !! sp = Some r -> re_source r = pat_s_plus -> re_sticky r = true ->
  p <= q -> q <= length str -> length str - q < fuel ->
  exists k',
    split_loop fuel sp str p q A (<[sp := with_lastIndex r k]> h0) =
      (Normal (A ++ split_pieces (substring str p q) false (drop q str)),
       <[sp := with_lastIndex r k']> h0).
Proof.
  intros Hsp Hpat Hy. revert p q A k.
  induction fuel as [|fuel IH]; intros p q A k Hpq Hq Hfuel; [lia|].
  simpl. destruct (Nat.ltb_spec q (length str)) as [Hlt|Hge].
  - pose proof (lookup_set _ _ _ (with_lastIndex r k) Hsp) as Hk.
    rewrite (bind_run _ _ _ _ _ (SetLastIndex_run _ _ _ q Hk)).
    rewrite list_insert_insert_eq, with_lastIndex_twice.
    pose proof (lookup_set _ _ _ (with_lastIndex r q) Hsp) as Hq'.
    unfold bind at 1. rewrite (exec_sticky _ _ _ str Hq' Hy Hq).
    cbn [re_source re_lastIndex with_lastIndex]. rewrite Hpat. unfold match_at.
    destruct (lookup_lt_is_Some_2 str q Hlt) as [c Hc]. rewrite Hc.
    rewrite (drop_lookup_cons _ _ _ Hc).
    cbn [split_pieces re_global re_sticky].
    destruct (is_ws c) eqn:Hws.
    + rewrite list_insert_insert_eq, with_lastIndex_twice.
      set (e := q + 1 + ws_run (drop (q + 1) str)).
      pose proof (lookup_set _ _ _ (with_lastIndex r e) Hsp) as He.
      rewrite (bind_run _ _ _ _ _ (GetLastIndex_run _ _ _ He)). simpl.
      assert (e <= length str) as Hle.
      { pose proof (ws_run_le (drop (q + 1) str)) as Hrun.
        rewrite length_drop in Hrun. unfold e. lia. }
      rewrite Nat.min_l by done.
      destruct (Nat.eqb_spec e p) as [?|_]; [unfold e in *; lia|].
      destruct (IH e e (A ++ [substring str p q]) e) as [k' ->]; [lia..|].
      exists k'. f_equal. f_equal.
      rewrite <- app_assoc. simpl. rewrite substring_same.
      rewrite split_pieces_skip, drop_drop. done.
    + rewrite list_insert_insert_eq, with_lastIndex_twice.
      destruct (IH p (q + 1) A 0) as [k' ->]; [lia..|].
      exists k'. by rewrite (substring_snoc _ _ _ c).
  - exists k. rewrite drop_ge by lia. simpl.
    by rewrite !substring_to_end by lia.
Qed.

(** [str.split(/\s+/)]: the pieces, and one new object on the heap. *)
Lemma RegExp_split_run h rx r str :
  h !! rx = Some r -> re_source r = pat_s_plus ->
  exists k,
    RegExp_split rx str h =
      (Normal (split_pieces [] false str),
       h ++ [RegExp pat_s_plus (re_global r) true k]).
Proof.
  intros Hrx Hpat. unfold RegExp_split.
  rewrite (bind_run _ _ _ _ _ (GetRegExp_run _ _ _ Hrx)).
  rewrite (bind_run _ _ _ _ _ (RegExpCreate_run _ _ _ _)).
  rewrite Hpat. set (sp := RegExp pat_s_plus (re_global r) true 0).
  destruct (Nat.eqb_spec (length str) 0) as [Hlen|Hlen].
  - apply length_zero_iff_nil in Hlen as ->.
    rewrite (bind_run _ _ _ _ _
      (exec_sticky _ _ sp [] (lookup_created h sp) eq_refl (Nat.le_0_l _))).
    simpl. exists 0. by rewrite set_created.
  - destruct (split_loop_run (length str + 1) (h ++ [sp]) (length h) sp str
                0 0 [] 0) as [k Hk]; [apply lookup_created|done..|lia|lia|].
    rewrite set_created in Hk. change (with_lastIndex sp 0) with sp in Hk.
    rewrite Hk. exists k. by rewrite set_created, substring_same.
Qed.
End Split.

(** ** [replace] of [\s] (global) by the empty text *)

Section Replace.
Implicit Types (h : heap) (r : regexp) (str s : jsstring).

Lemma drop_cons_inv str i c s :
  drop i str = c :: s -> str !! i = Some c /\ drop (i + 1) str = s.
Proof.
  intros H. split.
  - replace i with (i + 0) by lia. by rewrite <- lookup_drop, H.
  - by rewrite <- drop_drop, H.
Qed.

(** The first match found by the scan heads the list of matches. *)
Lemma find_ws_matches s i :
  match find_ws s with
  | None => ws_matches i s = []
  | Some d =>
      exists c, s !! d = Some c /\
        ws_matches i s = Match (i + d) [c] :: ws_matches (i + d + 1) (drop (d + 1) s)
  end.
Proof.
  revert i. induction s as [|c s IH]; intros i; simpl; [done|].
  destruct (is_ws c) eqn:Hc.
  - exists c. split; [done|]. by rewrite Nat.add_0_r, Nat.add_1_r.
  - specialize (IH (S i)). destruct (find_ws s) as [d|]; simpl; [|done].
    destruct IH as (c' & Hd & IH). exists c'. split; [done|].
    rewrite IH. by replace (S i + d) with (i + S d) by lia.
Qed.

Lemma replace_collect_run fuel h0 R r str i results :
  h0 !! R = Some r ->
  re_source r = pat_s -> re_global r = true -> re_sticky r = false ->
  i <= length str -> length str + 1 - i < fuel ->
  replace_collect fuel R true str results (<[R := with_lastIndex r i]> h0) =
    (Normal (results ++ ws_matches i (drop i str)),
     <[R := with_lastIndex r 0]> h0).
Proof.
  intros HR Hp Hg Hy. revert i results.
  induction fuel as [|fuel IH]; intros i results Hi Hfuel; [lia|].
  simpl. unfold bind at 1, RegExpBuiltinExec.
  pose proof (lookup_set _ _ _ (with_lastIndex r i) HR) as Hi'.
  rewrite (bind_run _ _ _ _ _ (GetRegExp_run _ _ _ Hi')).
  cbn [re_global re_sticky re_lastIndex with_lastIndex]. rewrite Hg.
  cbn [orb].
  rewrite (exec_loop_global _ _ _ _ _ _ _ Hi') by (done || lia).
  pose proof (find_ws_matches (drop i str) i) as Hm.
  destruct (find_ws (drop i str)) as [d|].
  - destruct Hm as (c & Hd & ->). rewrite lookup_drop in Hd.
    apply lookup_lt_Some in Hd as Hlt.
    rewrite (substring_one _ _ _ Hd). cbn [m_matched length Nat.eqb].
    rewrite (bind_run _ _ _ _ _ (eq_refl : ret tt _ = (Normal tt, _))).
    rewrite list_insert_insert_eq, with_lastIndex_twice.
    rewrite IH by lia.
    rewrite <- app_assoc, drop_drop, Nat.add_assoc. done.
  - rewrite list_insert_insert_eq, with_lastIndex_twice.
    rewrite Hm, app_nil_r. done.
Qed.

(** Putting the result together from the matches at white space. *)
Lemma replace_assemble_run str s i acc nsp :
  drop i str = s -> nsp <= i ->
  (let '(a, n) := foldl (replace_step str []) (acc, nsp) (ws_matches i s) in
   if length str <=? n then a else a ++ substring str n (length str)) =
  acc ++ substring str nsp i ++ remove_ws s.
Proof.
  revert i acc nsp. induction s as [|c s IH]; intros i acc nsp Hs Hn.
  - assert (length str <= i) as Hlen.
    { apply (f_equal length) in Hs. rewrite length_drop in Hs. simpl in Hs. lia. }
    simpl. rewrite app_nil_r, (substring_to_end _ _ i) by done.
    destruct (Nat.leb_spec (length str) nsp) as [Hle|_].
    + by rewrite drop_ge, app_nil_r.
    + by rewrite substring_to_end.
  - apply drop_cons_inv in Hs as [Hc Hs].
    apply lookup_lt_Some in Hc as Hlt.
    simpl. destruct (is_ws c) eqn:Hws.
    + cbn [foldl replace_step m_index m_matched length].
      rewrite Nat.min_l by lia.
      destruct (Nat.leb_spec nsp i) as [_|?]; [|lia].
      rewrite (IH (S i)) by (lia || by rewrite <- Nat.add_1_r).
      rewrite Nat.add_1_r, substring_same, !app_nil_r. simpl.
      by rewrite <- !app_assoc.
    + rewrite (IH (S i)) by (lia || by rewrite <- Nat.add_1_r).
      rewrite <- Nat.add_1_r, (substring_snoc _ _ _ c) by done.
      by rewrite <- !app_assoc.
Qed.

(** [str.replace(/\s/g, '')]: the text without its white space; the
    regular expression is left with [lastIndex] 0. *)
Lemma RegExp_replace_run h rx r str :
  h !! rx = Some r ->
  re_source r = pat_s -> re_global r = true -> re_sticky r = false ->
  RegExp_replace rx str [] h =
    (Normal (remove_ws str), <[rx := with_lastIndex r 0]> h).
Proof.
  intros Hrx Hp Hg Hy. unfold RegExp_replace.
  rewrite (bind_run _ _ _ _ _ (GetRegExp_run _ _ _ Hrx)). rewrite Hg.
  rewrite (bind_run _ _ _ _ _ (SetLastIndex_run _ _ _ 0 Hrx)).
  rewrite (bind_run _ _ _ _ _
    (replace_collect_run (length str + 2) h rx r str 0 [] Hrx Hp Hg Hy
       (Nat.le_0_l _) ltac:(lia))).
  unfold ret, replace_assemble. f_equal. f_equal.
  change (drop 0 str) with str. rewrite app_nil_l.
  by rewrite (replace_assemble_run str str 0 [] 0 eq_refl (Nat.le_refl _)),
    substring_same.
Qed.
End Replace.

(** ** What the three functions return, and the heap they leave *)

Section Runs.
Implicit Types (h : heap) (text : value).

Lemma wordCount_run text h :
  exists ext,
    wordCount text h = (Normal (Z.of_nat (length (words_of text))), h ++ ext).
Proof.
  destruct text as [ | |s]; try (exists []; by rewrite app_nil_r).
  unfold wordCount, words_of, words. simpl ToBoolean.
  destruct s as [|c s]; [exists []; by rewrite app_nil_r|].
  cbn [length Nat.eqb negb]. unfold String_trim at 1.
  cbn [this_string]. unfold bind at 1 2 3. cbn [ret].
  destruct (jsstring_eqb (trim (c :: s)) []); [exists []; by rewrite app_nil_r|].
  unfold String_trim. cbn [this_string]. unfold bind at 1 2. cbn [ret].
  rewrite (bind_run _ _ _ _ _ (RegExpCreate_run _ _ _ _)).
  unfold String_split. cbn [this_string]. unfold bind at 2. cbn [ret].
  destruct (RegExp_split_run (h ++ [RegExp pat_s_plus false false 0])
              (length h) _ (trim (c :: s)) (lookup_created _ _) eq_refl)
    as [k Hk].
  rewrite (bind_run _ _ _ _ _ Hk). rewrite <- app_assoc.
  by eexists.
Qed.

Lemma charCount_run text h :
  exists ext,
    charCount text h = (Normal (Z.of_nat (length (chars_of text))), h ++ ext).
Proof.
  destruct text as [ | |s]; try (exists []; by rewrite app_nil_r).
  unfold charCount, chars_of. simpl ToBoolean.
  destruct s as [|c s]; [exists []; by rewrite app_nil_r|].
  change (ToBoolean (VString (c :: s))) with true. cbn [negb].
  rewrite (bind_run _ _ _ _ _ (RegExpCreate_run _ _ _ _)).
  unfold String_replace. cbn [this_string]. unfold bind at 2. cbn [ret].
  rewrite (bind_run _ _ _ _ _
    (RegExp_replace_run _ _ _ (c :: s)
       (lookup_created h (RegExp pat_s true false 0)) eq_refl eq_refl eq_refl)).
  rewrite set_created. by eexists.
Qed.

Lemma readingTime_run text h :
  exists ext,
    readingTime text h =
      (Normal (Math_ceil (inject_Z (Z.of_nat (length (words_of text))) / inject_Z 200)),
       h ++ ext).
Proof.
  destruct (wordCount_run text h) as [ext Hw]. exists ext.
  unfold readingTime. by rewrite (bind_run _ _ _ _ _ Hw).
Qed.
End Runs.

(** ** Trimming *)

Section Trim.
Implicit Types (s u w t : jsstring).

Lemma all_ws_app u w : all_ws (u ++ w) = all_ws u && all_ws w.
Proof. apply forallb_app. Qed.

Lemma all_ws_rev w : all_ws (rev w) = all_ws w.
Proof.
  induction w as [|c w IH]; simpl; [done|].
  rewrite all_ws_app, IH. simpl. rewrite andb_true_r. apply andb_comm.
Qed.

Lemma trim_start_split s : exists w, s = w ++ trim_start s /\ all_ws w = true.
Proof.
  induction s as [|c s (w & Hs & Hw)]; [by exists []|].
  simpl. destruct (is_ws c) eqn:Hc.
  - exists (c :: w). simpl. rewrite Hc, Hw. split; [by f_equal|done].
  - by exists [].
Qed.

Lemma trim_start_head s c t : trim_start s = c :: t -> is_ws c = false.
Proof.
  induction s as [|d s IH]; simpl; [done|].
  destruct (is_ws d) eqn:Hd; [done|]. by intros [= <- _].
Qed.

Lemma trim_end_split u : exists w, u = trim_end u ++ w /\ all_ws w = true.
Proof.
  destruct (trim_start_split (rev u)) as (w & Hu & Hw).
  exists (rev w). split; [|by rewrite all_ws_rev].
  unfold trim_end. rewrite <- rev_app_distr, <- Hu. by rewrite rev_involutive.
Qed.

Lemma trim_end_last u t c : trim_end u = t ++ [c] -> is_ws c = false.
Proof.
  unfold trim_end. intros H. apply (f_equal (@rev _)) in H.
  rewrite rev_involutive, rev_app_distr in H. simpl in H.
  by eapply trim_start_head.
Qed.

(** A text is its trimmed form between two runs of white space. *)
Lemma trim_split s :
  exists l r, s = l ++ trim s ++ r /\ all_ws l = true /\ all_ws r = true.
Proof.
  destruct (trim_start_split s) as (l & Hs & Hl).
  destruct (trim_end_split (trim_start s)) as (r & Hu & Hr).
  exists l, r. unfold trim. by rewrite <- Hu.
Qed.

Lemma trim_head s c t : trim s = c :: t -> is_ws c = false.
Proof.
  unfold trim. intros H.
  destruct (trim_end_split (trim_start s)) as (r & Hu & _).
  rewrite H in Hu. simpl in Hu. by eapply trim_start_head.
Qed.

Lemma ends_ws_snoc prev t c : ends_ws prev (t ++ [c]) = is_ws c.
Proof. revert prev. induction t as [|d t IH]; intros prev; simpl; [done|apply IH]. Qed.

Lemma trim_ends s : trim s <> [] -> ends_ws true (trim s) = false.
Proof.
  intros Hne. destruct (exists_last Hne) as (t & c & Ht).
  rewrite Ht, ends_ws_snoc. unfold trim in Ht. by eapply trim_end_last.
Qed.

Lemma trim_all_ws s : all_ws s = true -> trim s = [].
Proof.
  intros Hs. destruct (trim s) as [|c t] eqn:Ht; [done|].
  destruct (trim_split s) as (l & r & Heq & _ & _).
  rewrite Heq, Ht, !all_ws_app in Hs. simpl in Hs.
  rewrite (trim_head _ _ _ Ht) in Hs. simpl in Hs.
  by rewrite andb_false_r in Hs.
Qed.
End Trim.

(** ** Pieces, runs and tokens *)

Section Words.
Implicit Types (s a b g w cur : jsstring).

Lemma is_ws_not_SPACE c : is_ws c = false -> (c =? SPACE)%N = false.
Proof.
  intros Hc. destruct (N.eqb_spec c SPACE) as [->|]; [|done].
  by vm_compute in Hc.
Qed.

Lemma runs_from_nil_length cur :
  length (runs_from cur []) = if nonempty cur then 1 else 0.
Proof. by destruct cur. Qed.

Lemma runs_from_ws cur c s :
  is_ws c = true -> runs_from cur (c :: s) = runs_from cur [] ++ runs_from [] s.
Proof. intros Hc. simpl. rewrite Hc. by destruct cur. Qed.

(** A gap of white space ends the run being read, whatever its length. *)
Lemma runs_from_gap cur g s :
  all_ws g = true -> g <> [] ->
  runs_from cur (g ++ s) = runs_from cur [] ++ runs_from [] s.
Proof.
  revert cur. induction g as [|c g IH]; intros cur Hg Hne; [done|].
  simpl in Hg. apply andb_prop in Hg as [Hc Hg].
  rewrite <- app_comm_cons, (runs_from_ws _ _ _ Hc).
  destruct g as [|d g]; [done|].
  rewrite (IH [] Hg) by done. done.
Qed.

Lemma runs_from_ws_prefix w s :
  all_ws w = true -> runs_from [] (w ++ s) = runs_from [] s.
Proof.
  intros Hw. destruct w as [|c w]; [done|]. by rewrite runs_from_gap.
Qed.

Lemma runs_from_ws_suffix cur s w :
  all_ws w = true -> runs_from cur (s ++ w) = runs_from cur s.
Proof.
  intros Hw. revert cur. induction s as [|c s IH]; intros cur.
  - destruct w as [|d w]; [done|].
    rewrite app_nil_l, <- (app_nil_r (d :: w)), runs_from_gap by done.
    apply app_nil_r.
  - simpl. destruct (is_ws c); [|apply IH].
    destruct cur; by rewrite IH.
Qed.

Lemma runs_from_no_ws cur w s :
  no_ws w = true -> runs_from cur (w ++ s) = runs_from (cur ++ w) s.
Proof.
  revert cur. induction w as [|c w IH]; intros cur Hw.
  - by rewrite app_nil_r.
  - simpl in Hw. apply andb_prop in Hw as [Hc Hw].
    apply negb_true_iff in Hc. simpl. rewrite Hc, (IH _ Hw).
    by rewrite <- app_assoc.
Qed.

Lemma runs_from_prefix a s s' :
  (forall cur, runs_from cur s = runs_from cur s') ->
  forall cur, runs_from cur (a ++ s) = runs_from cur (a ++ s').
Proof.
  intros H. induction a as [|c a IH]; intros cur; [apply H|].
  simpl. by rewrite !IH.
Qed.

Lemma maximal_runs_trim s : maximal_runs (trim s) = maximal_runs s.
Proof.
  destruct (trim_split s) as (l & r & Hs & Hl & Hr). unfold maximal_runs.
  by rewrite Hs at 2; rewrite runs_from_ws_prefix, runs_from_ws_suffix.
Qed.

(** The pieces of [split] that are not empty are the maximal runs. *)
Lemma filter_split_pieces cur sk s :
  (sk = true -> cur = []) ->
  List.filter nonempty (split_pieces cur sk s) = runs_from cur s.
Proof.
  revert cur sk. induction s as [|c s IH]; intros cur sk Hsk; simpl.
  - by destruct cur.
  - destruct (is_ws c).
    + destruct sk; [rewrite (Hsk eq_refl); by apply IH|].
      simpl. rewrite IH by done. by destruct cur.
    + by apply IH.
Qed.

(** [split] on [\s+] is the procedure of the specification. *)
Lemma split_pieces_collapse cur sk s :
  (sk = true -> cur = []) ->
  split_pieces cur sk s = tokens_between cur (collapse sk s).
Proof.
  revert cur sk. induction s as [|c s IH]; intros cur sk Hsk; simpl; [done|].
  destruct (is_ws c) eqn:Hc.
  - destruct sk; [rewrite (Hsk eq_refl); by apply IH|].
    simpl. by rewrite IH.
  - simpl. rewrite (is_ws_not_SPACE _ Hc). by apply IH.
Qed.

Lemma split_pieces_nonempty cur sk s :
  (sk = false -> cur <> []) -> ends_ws sk s = false ->
  forallb nonempty (split_pieces cur sk s) = true.
Proof.
  revert cur sk. induction s as [|c s IH]; intros cur sk Hcur Hend; simpl in *.
  - subst sk. specialize (Hcur eq_refl). by destruct cur.
  - destruct (is_ws c).
    + destruct sk; [by apply IH|]. simpl. rewrite IH by done.
      specialize (Hcur eq_refl). by destruct cur.
    + apply IH; [|done]. intros _. by destruct cur.
Qed.

Lemma filter_all {A} (f : A -> bool) (l : list A) :
  forallb f l = true -> List.filter f l = l.
Proof.
  induction l as [|x l IH]; simpl; [done|].
  intros [Hx Hl]%andb_prop. by rewrite Hx, IH.
Qed.

Lemma trim_eqb_nil s : jsstring_eqb (trim s) [] = false -> trim s <> [].
Proof. intros H Hn. by rewrite Hn in H. Qed.

(** The array [wordCount] measures holds exactly the maximal runs. *)
Lemma words_maximal_runs s : words s = maximal_runs s.
Proof.
  unfold words. rewrite <- maximal_runs_trim.
  destruct (jsstring_eqb (trim s) []) eqn:Ht.
  - apply jsstring_eqb_nil in Ht. by rewrite Ht.
  - apply trim_eqb_nil in Ht. unfold maximal_runs.
    rewrite <- (filter_split_pieces [] false) by done.
    symmetry. apply filter_all.
    pose proof (trim_ends _ Ht) as Hend.
    destruct (trim s) as [|c t] eqn:Heq; [done|].
    pose proof (trim_head _ _ _ Heq) as Hc.
    simpl in *. rewrite Hc in *.
    apply split_pieces_nonempty; [intros _; discriminate|exact Hend].
Qed.

Lemma count_tokens_runs s : count_tokens s = length (maximal_runs s).
Proof.
  unfold count_tokens. rewrite <- split_pieces_collapse by done.
  rewrite filter_split_pieces by done. by rewrite <- (maximal_runs_trim s).
Qed.
End Words.

(** ** Counting *)

Section Counting.
Implicit Types (s cur : jsstring).

Lemma filter_seq_shift (f : nat -> bool) a n :
  length (List.filter f (seq (S a) n)) =
  length (List.filter (fun i => f (S i)) (seq a n)).
Proof.
  revert a. induction n as [|n IH]; intros a; simpl; [done|].
  destruct (f (S a)); simpl; by rewrite IH.
Qed.

Lemma filter_seq_S (f : nat -> bool) n :
  length (List.filter f (seq 0 (S n))) =
  (if f 0 then 1 else 0) + length (List.filter (fun i => f (S i)) (seq 0 n)).
Proof. simpl. rewrite <- filter_seq_shift. by destruct (f 0). Qed.

Lemma starts_run_cons prev c s i :
  starts_run prev (c :: s) (S i) = starts_run (is_ws c) s i.
Proof. unfold starts_run. simpl. by destruct i. Qed.

(** Each maximal run is counted once, at the index it starts at. *)
Lemma runs_from_starts cur s :
  length (runs_from cur s) =
  (if nonempty cur then 1 else 0) +
  length (List.filter (starts_run (negb (nonempty cur)) s) (seq 0 (length s))).
Proof.
  revert cur. induction s as [|c s IH]; intros cur.
  - rewrite runs_from_nil_length. simpl. lia.
  - cbn [length]. rewrite filter_seq_S.
    rewrite (List.filter_ext _ _ (starts_run_cons _ c s)).
    unfold starts_run at 1. simpl lookup. cbn [runs_from].
    destruct (is_ws c) eqn:Hc; cbn [negb andb].
    + specialize (IH []). simpl in IH. destruct cur; simpl; rewrite IH; lia.
    + specialize (IH (cur ++ [c])).
      replace (nonempty (cur ++ [c])) with true in IH by (by destruct cur).
      rewrite IH. destruct cur; simpl; lia.
Qed.

Lemma maximal_runs_starts s : length (maximal_runs s) = length (run_starts s).
Proof. unfold maximal_runs, run_starts. by rewrite runs_from_starts. Qed.

Lemma remove_ws_length s : length (remove_ws s) = count_non_ws s.
Proof.
  induction s as [|c s IH]; simpl; [done|].
  destruct (is_ws c); simpl; by rewrite IH.
Qed.

Lemma remove_ws_all_ws s : all_ws s = true -> remove_ws s = [].
Proof.
  induction s as [|c s IH]; simpl; [done|].
  intros [Hc Hs]%andb_prop. rewrite Hc. by apply IH.
Qed.

(** Every run holds a character that is not white space. *)
Lemma runs_from_le cur s :
  length (runs_from cur s) <= (if nonempty cur then 1 else 0) + count_non_ws s.
Proof.
  revert cur. induction s as [|c s IH]; intros cur.
  - rewrite runs_from_nil_length. simpl. lia.
  - simpl. destruct (is_ws c).
    + specialize (IH []). simpl in IH. destruct cur; simpl; lia.
    + specialize (IH (cur ++ [c])).
      replace (nonempty (cur ++ [c])) with true in IH by (by destruct cur).
      destruct (nonempty cur); lia.
Qed.

(** [Math.ceil(n / 200)] on integers. *)
Lemma Math_ceil_quotient (n : Z) :
  Math_ceil (inject_Z n / inject_Z 200) = (- ((- n) / 200))%Z.
Proof.
  unfold Math_ceil, Qceiling, Qfloor, Qdiv, Qmult, Qinv, Qopp, inject_Z. simpl.
  by rewrite Z.mul_1_r.
Qed.

Lemma Math_ceil_is_ceiling (n : Z) :
  is_ceiling_of_quotient (Math_ceil (inject_Z n / inject_Z 200)) n 200.
Proof.
  rewrite Math_ceil_quotient. unfold is_ceiling_of_quotient.
  pose proof (Z.div_mod (- n) 200 ltac:(lia)) as Hdm.
  pose proof (Z.mod_pos_bound (- n) 200 ltac:(lia)) as Hb.
  split; [lia|]. intros m' Hm'. lia.
Qed.
(** The maximal runs hold the characters that are not white space, in
    order, and none of them is empty or holds white space. *)
Lemma runs_from_concat cur s : concat (runs_from cur s) = cur ++ remove_ws s.
Proof.
  revert cur. induction s as [|c s IH]; intros cur; simpl.
  - destruct cur; simpl; by rewrite ?app_nil_r.
  - destruct (is_ws c).
    + destruct cur; simpl; by rewrite IH.
    + by rewrite IH, <- app_assoc.
Qed.

Lemma runs_from_words cur s :
  no_ws cur = true ->
  forallb (fun w => nonempty w && no_ws w) (runs_from cur s) = true.
Proof.
  revert cur. induction s as [|c s IH]; intros cur Hcur; simpl.
  - destruct cur; simpl; [done|]. simpl in Hcur. by rewrite Hcur.
  - destruct (is_ws c) eqn:Hc.
    + destruct cur as [|d cur]; [by apply IH|].
      simpl in *. by rewrite Hcur, IH.
    + apply IH. unfold no_ws. rewrite forallb_app. simpl.
      fold (no_ws cur). by rewrite Hcur, Hc.
Qed.

Lemma maximal_runs_concat s : concat (maximal_runs s) = remove_ws s.
Proof. apply runs_from_concat. Qed.

Lemma maximal_runs_words s :
  forallb (fun w => nonempty w && no_ws w) (maximal_runs s) = true.
Proof. by apply runs_from_words. Qed.
End Counting.

(** ** Results of the three functions *)

Section Results.
Implicit Types (h : heap) (text : value) (s a b g w : jsstring).

Lemma wordCount_result text h :
  result (wordCount text) h = Normal (Z.of_nat (length (words_of text))).
Proof. unfold result. by destruct (wordCount_run text h) as [ext ->]. Qed.

Lemma charCount_result text h :
  result (charCount text) h = Normal (Z.of_nat (length (chars_of text))).
Proof. unfold result. by destruct (charCount_run text h) as [ext ->]. Qed.

Lemma readingTime_result text h :
  result (readingTime text) h =
  Normal (Math_ceil (inject_Z (Z.of_nat (length (words_of text))) / inject_Z 200)).
Proof. unfold result. by destruct (readingTime_run text h) as [ext ->]. Qed.

Lemma wordCount_string s h :
  result (wordCount (VString s)) h = Normal (Z.of_nat (length (maximal_runs s))).
Proof. rewrite wordCount_result. simpl. by rewrite words_maximal_runs. Qed.

Lemma charCount_string s h :
  result (charCount (VString s)) h = Normal (Z.of_nat (count_non_ws s)).
Proof. rewrite charCount_result. simpl. by rewrite remove_ws_length. Qed.

Lemma maximal_runs_all_ws s : all_ws s = true -> maximal_runs s = [].
Proof.
  intros Hs. unfold maximal_runs.
  by rewrite <- (app_nil_r s), runs_from_ws_prefix.
Qed.

Lemma count_non_ws_all_ws s : all_ws s = true -> count_non_ws s = 0.
Proof. intros Hs. by rewrite <- remove_ws_length, remove_ws_all_ws. Qed.

(** A word between two runs of white space is the only maximal run. *)
Lemma maximal_runs_single l w t :
  all_ws l = true -> all_ws t = true -> w <> [] -> no_ws w = true ->
  maximal_runs (l ++ w ++ t) = [w].
Proof.
  intros Hl Ht Hne Hw. unfold maximal_runs.
  rewrite runs_from_ws_prefix, runs_from_ws_suffix by done.
  rewrite <- (app_nil_r w), runs_from_no_ws by done.
  simpl. rewrite app_nil_r. by destruct w.
Qed.

(** The runs on both sides of a gap of white space. *)
Lemma runs_from_app_gap cur a g b :
  all_ws g = true -> g <> [] ->
  runs_from cur (a ++ g ++ b) = runs_from cur a ++ runs_from [] b.
Proof.
  intros Hg Hne. revert cur. induction a as [|c a IH]; intros cur.
  - rewrite app_nil_l. by apply runs_from_gap.
  - simpl. destruct (is_ws c); [|apply IH].
    destruct cur; by rewrite IH.
Qed.

Lemma is_punct_not_ws c : is_punct c = true -> is_ws c = false.
Proof.
  intros Hp. apply not_true_is_false. intros Hw.
  unfold is_punct in Hp. unfold is_ws in Hw.
  repeat (setoid_rewrite orb_true_iff in Hp || setoid_rewrite andb_true_iff in Hp
          || setoid_rewrite N.leb_le in Hp).
  repeat (setoid_rewrite orb_true_iff in Hw || setoid_rewrite andb_true_iff in Hw
          || setoid_rewrite N.leb_le in Hw || setoid_rewrite N.eqb_eq in Hw).
  lia.
Qed.

Lemma punct_no_ws s : forallb is_punct s = true -> no_ws s = true.
Proof.
  induction s as [|c s IH]; simpl; [done|].
  intros [Hc Hs]%andb_prop. by rewrite (is_punct_not_ws _ Hc), IH.
Qed.
End Results.

(** ** The quotient in double precision *)

(** Rounding to nearest is monotone, keeps the integers up to 2^53, and
    moves a quotient between 1/200 and 2^53 by at most 2^-53 of itself.
    That is all it takes for [Math.ceil] of the rounded quotient to be
    [Math.ceil] of the exact one, for every word count below 2^53. *)
Section RoundedQuotient.
Local Open Scope Q_scope.

Variable rnd : Q -> Q.
Hypothesis rnd_monotone : forall x y, x <= y -> rnd x <= rnd y.
Hypothesis rnd_integer :
  forall k : Z, (0 <= k <= 2 ^ 53)%Z -> rnd (inject_Z k) == inject_Z k.
Hypothesis rnd_nearest :
  forall x, 1 # 200 <= x -> x <= inject_Z (2 ^ 53) -> x - rnd x <= x * (1 # 2 ^ 53).

Lemma Qceiling_unique (y : Q) (k : Z) :
  inject_Z (k - 1) < y -> y <= inject_Z k -> Qceiling y = k.
Proof.
  intros Hlo Hhi.
  pose proof (Qle_ceiling y) as H1. pose proof (Qceiling_lt y) as H2.
  assert (inject_Z (k - 1) < inject_Z (Qceiling y)) as H3 by lra.
  assert (inject_Z (Qceiling y - 1) < inject_Z k) as H4 by lra.
  rewrite <- Zlt_Qlt in H3, H4. lia.
Qed.

Lemma Math_ceil_rounded (n : Z) :
  (0 <= n < 2 ^ 53)%Z ->
  Math_ceil (rnd (inject_Z n / inject_Z 200)) = Math_ceil (inject_Z n / inject_Z 200).
Proof.
  intros Hn. unfold Math_ceil. change (inject_Z 200) with (200 # 1).
  set (x := inject_Z n / (200 # 1)).
  set (k := Qceiling x).
  pose proof (Qle_ceiling x) as Hhi. pose proof (Qceiling_lt x) as Hlo.
  fold k in Hhi, Hlo.
  assert (x * (200 # 1) == inject_Z n) as Hx by (unfold x; field).
  assert (inject_Z n < inject_Z (2 ^ 53)) as Hn1 by (rewrite <- Zlt_Qlt; lia).
  assert (200 * (k - 1) + 1 <= n)%Z as Hint.
  { assert (inject_Z (200 * (k - 1)) < inject_Z n) as H.
    { rewrite inject_Z_mult. change (inject_Z 200) with (200 # 1). lra. }
    rewrite <- Zlt_Qlt in H. lia. }
  assert (n <= 200 * k)%Z as Hint'.
  { assert (inject_Z n <= inject_Z (200 * k)) as H.
    { rewrite inject_Z_mult. change (inject_Z 200) with (200 # 1). lra. }
    rewrite <- Zle_Qle in H. lia. }
  assert (rnd (inject_Z 0) == inject_Z 0) as H0 by (apply rnd_integer; lia).
  change (inject_Z 0) with (0 # 1) in H0.
  apply Qceiling_unique.
  - destruct (Z.eq_dec n 0%Z) as [->|Hpos].
    + assert (k = 0%Z) as -> by lia.
      assert (0 <= x) as Hx0 by (change (inject_Z 0) with (0 # 1) in Hx; lra).
      apply rnd_monotone in Hx0. change (inject_Z (0 - 1)) with (-1 # 1). lra.
    + assert (inject_Z 1 <= inject_Z n) as H1 by (rewrite <- Zle_Qle; lia).
      assert (inject_Z (200 * (k - 1) + 1) <= inject_Z n) as H.
      { rewrite <- Zle_Qle. lia. }
      rewrite inject_Z_plus, inject_Z_mult in H.
      change (inject_Z (2 ^ 53)) with (9007199254740992 # 1) in *.
      change (inject_Z 200) with (200 # 1) in *.
      change (inject_Z 1) with (1 # 1) in *.
      pose proof (rnd_nearest x ltac:(lra) ltac:(lra)) as Hr.
      change (1 # 2 ^ 53) with (1 # 9007199254740992) in Hr.
      lra.
  - assert (0 <= k <= 2 ^ 53)%Z as Hk by lia.
    rewrite <- (rnd_integer k Hk). by apply rnd_monotone.
Qed.
End RoundedQuotient.

(** On every word count up to 1000, and on the counts next to 2^29 (about
    the longest string an engine holds) and next to 2^53, [Math.ceil] of the
    double-precision quotient is [Math_ceil] of the exact one. *)
Example Math_ceil_as_in_binary64 :
  forallb ceil_agrees (seqZ 0 1001) = true /\
  forallb ceil_agrees (seqZ (2 ^ 29 - 100) 201) = true /\
  forallb ceil_agrees (seqZ (2 ^ 53 - 200) 200) = true.
Proof. split; [|split]; vm_compute; reflexivity. Qed.

(** ** The scenarios of the test suite, run on the model *)

Section Scenarios.
Example wordCount_sentence :
  result (wordCount (VString (js "The quick brown fox"))) [] = Normal 4%Z.
Proof. reflexivity. Qed.

Example wordCount_multiple_spaces :
  result (wordCount (VString (js "hello   world"))) [] = Normal 2%Z.
Proof. reflexivity. Qed.

Example wordCount_leading_trailing :
  result (wordCount (VString (js "  hello world  "))) [] = Normal 2%Z.
Proof. reflexivity. Qed.

Example wordCount_empty : result (wordCount (VString (js ""))) [] = Normal 0%Z.
Proof. reflexivity. Qed.

Example wordCount_spaces : result (wordCount (VString (js "   "))) [] = Normal 0%Z.
Proof. reflexivity. Qed.

Example wordCount_single : result (wordCount (VString (js "hello"))) [] = Normal 1%Z.
Proof. reflexivity. Qed.

Example wordCount_lone_hyphen :
  result (wordCount (VString (js "well - no"))) [] = Normal 3%Z.
Proof. reflexivity. Qed.

Example charCount_sentence :
  result (charCount (VString (js "hello world"))) [] = Normal 10%Z.
Proof. reflexivity. Qed.

Example charCount_no_spaces : result (charCount (VString (js "hello"))) [] = Normal 5%Z.
Proof. reflexivity. Qed.

Example charCount_empty : result (charCount (VString (js ""))) [] = Normal 0%Z.
Proof. reflexivity. Qed.

Example charCount_spaces : result (charCount (VString (js "   "))) [] = Normal 0%Z.
Proof. reflexivity. Qed.

Example charCount_tabs_newlines :
  result (charCount (VString (js "a" ++ [TAB] ++ js "b" ++ [LF] ++ js "c"))) [] = Normal 3%Z.
Proof. reflexivity. Qed.

Example readingTime_short :
  result (readingTime (VString (trim (String_repeat (js "word ") 100)))) [] = Normal 1%Z.
Proof. vm_compute. reflexivity. Qed.

Example readingTime_200 :
  result (readingTime (VString (trim (String_repeat (js "word ") 200)))) [] = Normal 1%Z.
Proof. vm_compute. reflexivity. Qed.

Example readingTime_201 :
  result (readingTime (VString (trim (String_repeat (js "word ") 201)))) [] = Normal 2%Z.
Proof. vm_compute. reflexivity. Qed.

Example readingTime_empty : result (readingTime (VString (js ""))) [] = Normal 0%Z.
Proof. reflexivity. Qed.

(** Without the guard on [!text] the call of [trim] throws. *)
Example trim_of_undefined : result (String_trim VUndefined) [] = Throw TypeError.
Proof. reflexivity. Qed.

(** [split] does return empty pieces when the text is not trimmed. *)
Example split_untrimmed :
  result (re <- RegExpCreate pat_s_plus false false ;;
       String_split (VString (js "  a b ")) re) [] =
  Normal [js ""; js "a"; js "b"; js ""].
Proof. reflexivity. Qed.
(** The heap matters to the built-ins: a global regular expression that is
    shared answers a second [exec] from where the first one stopped. The
    three functions create theirs anew at every call. *)
Example shared_regexp_keeps_lastIndex :
  result (RegExpBuiltinExec 0 (js " a") ;;; RegExpBuiltinExec 0 (js " a"))
    [RegExp pat_s true false 0] = Normal None /\
  result (RegExpBuiltinExec 0 (js " a")) [RegExp pat_s true false 0] =
    Normal (Some (Match 0 [SPACE])).
Proof. split; reflexivity. Qed.
End Scenarios.

(** ** The properties of the specification *)

(** C1. For every input (a string, the empty string, white space only,
    undefined or null), [readingTime] returns the ceiling of the word count
    divided by 200: the least integer [minutes] with
    [words <= 200 * minutes]. In particular 200 words give 1, 201 words
    give 2 and no word gives 0. *)
Theorem readingTime_is_ceiling (text : value) (h : heap) :
  exists words minutes : Z,
    result (wordCount text) h = Normal words /\
    result (readingTime text) h = Normal minutes /\
    is_ceiling_of_quotient minutes words 200 /\
    (words = 200 -> minutes = 1)%Z /\
    (words = 201 -> minutes = 2)%Z /\
    (words = 0 -> minutes = 0)%Z.
Proof.
  exists (Z.of_nat (length (words_of text))).
  eexists. split; [apply wordCount_result|].
  split; [apply readingTime_result|].
  split; [apply Math_ceil_is_ceiling|].
  repeat split; intros ->; reflexivity.
Qed.

Lemma readingTime_is_ceiling_witness :
  result (readingTime (VString (trim (String_repeat (js "word ") 200)))) [] = Normal 1%Z /\
  result (readingTime (VString (trim (String_repeat (js "word ") 201)))) [] = Normal 2%Z /\
  result (readingTime (VString [])) [] = Normal 0%Z.
Proof.
  split; [|split].
  - destruct (readingTime_is_ceiling (VString (trim (String_repeat (js "word ") 200))) [])
      as (words & minutes & Hw & Hm & _ & H200 & _ & _).
    rewrite Hm. f_equal. apply H200.
    assert (result (wordCount (VString (trim (String_repeat (js "word ") 200)))) [] =
            Normal 200%Z) as Hrun by (vm_compute; reflexivity).
    congruence.
  - destruct (readingTime_is_ceiling (VString (trim (String_repeat (js "word ") 201))) [])
      as (words & minutes & Hw & Hm & _ & _ & H201 & _).
    rewrite Hm. f_equal. apply H201.
    assert (result (wordCount (VString (trim (String_repeat (js "word ") 201)))) [] =
            Normal 201%Z) as Hrun by (vm_compute; reflexivity).
    congruence.
  - destruct (readingTime_is_ceiling (VString []) [])
      as (words & minutes & Hw & Hm & _ & _ & _ & H0).
    rewrite Hm. f_equal. apply H0.
    assert (result (wordCount (VString [])) [] = Normal 0%Z) as Hrun by reflexivity.
    congruence.
Defined.

(** C2. [wordCount] returns 0 for undefined, null, the empty string and a
    string of white space only; for every string it returns the number of
    maximal runs of characters that are not white space, which is the number
    of indices where such a run starts, and the number of tokens that are
    not empty after trimming and collapsing each run of white space into
    one separator. *)
Theorem wordCount_counts_maximal_runs :
  (forall h, result (wordCount VUndefined) h = Normal 0%Z) /\
  (forall h, result (wordCount VNull) h = Normal 0%Z) /\
  (forall h, result (wordCount (VString [])) h = Normal 0%Z) /\
  (forall s h, all_ws s = true -> result (wordCount (VString s)) h = Normal 0%Z) /\
  (forall s h,
     result (wordCount (VString s)) h = Normal (Z.of_nat (length (maximal_runs s)))) /\
  (forall s, length (maximal_runs s) = length (run_starts s)) /\
  (forall s, length (maximal_runs s) = count_tokens s).
Proof.
  repeat split; try done.
  - intros s h Hs. by rewrite wordCount_string, maximal_runs_all_ws.
  - apply wordCount_string.
  - apply maximal_runs_starts.
  - intros s. symmetry. apply count_tokens_runs.
Qed.

Lemma wordCount_counts_maximal_runs_witness :
  result (wordCount (VString [SPACE; TAB; LF])) [] = Normal 0%Z.
Proof.
  apply (proj1 (proj2 (proj2 (proj2 wordCount_counts_maximal_runs)))).
  reflexivity.
Defined.

(** C3. [charCount] returns 0 for undefined, null and the empty string;
    for every string it returns the number of characters that are not white
    space, the length of the string with every white-space character
    removed; so a string of white space only gives 0. *)
Theorem charCount_counts_non_whitespace :
  (forall h, result (charCount VUndefined) h = Normal 0%Z) /\
  (forall h, result (charCount VNull) h = Normal 0%Z) /\
  (forall h, result (charCount (VString [])) h = Normal 0%Z) /\
  (forall s h, result (charCount (VString s)) h = Normal (Z.of_nat (count_non_ws s))) /\
  (forall s,
     count_non_ws s = length (List.filter (fun c => negb (is_ws c)) s)) /\
  (forall s h, all_ws s = true -> result (charCount (VString s)) h = Normal 0%Z).
Proof.
  repeat split; try done.
  - apply charCount_string.
  - intros s. induction s as [|c s IH]; simpl; [done|].
    destruct (is_ws c); simpl; by rewrite IH.
  - intros s h Hs. by rewrite charCount_string, count_non_ws_all_ws.
Qed.

Lemma charCount_counts_non_whitespace_witness :
  result (charCount (VString [SPACE; TAB; LF])) [] = Normal 0%Z.
Proof.
  apply (proj2 (proj2 (proj2 (proj2 (proj2 charCount_counts_non_whitespace))))).
  reflexivity.
Defined.

(** C4. The three functions are total on their domain: for every input and
    every heap each returns normally, with an integer that is not negative;
    none throws and no loop of the built-ins runs past its bound. *)
Theorem functions_total (text : value) (h : heap) :
  (exists n : Z, result (wordCount text) h = Normal n /\ (0 <= n)%Z) /\
  (exists n : Z, result (charCount text) h = Normal n /\ (0 <= n)%Z) /\
  (exists n : Z, result (readingTime text) h = Normal n /\ (0 <= n)%Z).
Proof.
  repeat split.
  - eexists. split; [apply wordCount_result|lia].
  - eexists. split; [apply charCount_result|lia].
  - eexists. split; [apply readingTime_result|].
    rewrite Math_ceil_quotient.
    pose proof (Z.div_mod (- Z.of_nat (length (words_of text))) 200 ltac:(lia)).
    pose proof (Z.mod_pos_bound (- Z.of_nat (length (words_of text))) 200 ltac:(lia)).
    lia.
Qed.

(** C5. White space added to the white space between two words does not
    change [wordCount]: with [g1 ++ g2] the gap that is there and [x] the
    white space added inside it, before it or after it, the count is the
    same; and the array that is measured holds no empty token. *)
Theorem wordCount_extra_whitespace (a g1 x g2 b : jsstring) (h : heap) :
  all_ws g1 = true -> all_ws g2 = true -> g1 ++ g2 <> [] -> all_ws x = true ->
  result (wordCount (VString (a ++ g1 ++ x ++ g2 ++ b))) h =
    result (wordCount (VString (a ++ g1 ++ g2 ++ b))) h /\
  forallb nonempty (words (a ++ g1 ++ x ++ g2 ++ b)) = true.
Proof.
  intros H1 H2 Hne Hx. split.
  - rewrite !wordCount_string. do 3 f_equal. unfold maximal_runs.
    rewrite (app_assoc g1 x), (app_assoc (g1 ++ x) g2), (app_assoc g1 g2).
    rewrite !runs_from_app_gap; try done.
    + by rewrite !all_ws_app, H1, H2.
    + by rewrite !all_ws_app, H1, H2, Hx.
    + intros Hnil. apply Hne.
      apply app_eq_nil in Hnil as [[-> _]%app_eq_nil ->]. done.
  - rewrite words_maximal_runs. unfold maximal_runs.
    rewrite <- (filter_split_pieces [] false) by done.
    apply forallb_forall. intros t Ht. by apply filter_In in Ht as [_ Ht].
Qed.

Lemma wordCount_extra_whitespace_witness :
  result (wordCount (VString
    (js "hello" ++ [SPACE] ++ [SPACE; TAB] ++ [] ++ js "world"))) [] =
    result (wordCount (VString (js "hello" ++ [SPACE] ++ [] ++ js "world"))) [] /\
  forallb nonempty
    (words (js "hello" ++ [SPACE] ++ [SPACE; TAB] ++ [] ++ js "world")) = true.
Proof.
  apply (wordCount_extra_whitespace (js "hello") [SPACE] [SPACE; TAB] []
           (js "world") []); [reflexivity|reflexivity|discriminate|reflexivity].
Defined.

(** C6. A string that is not empty and holds no white space counts as one
    word, also when white space stands before and after it. *)
Theorem wordCount_single_word (s : jsstring) (h : heap) :
  s <> [] -> no_ws s = true ->
  result (wordCount (VString s)) h = Normal 1%Z /\
  forall l t, all_ws l = true -> all_ws t = true ->
    result (wordCount (VString (l ++ s ++ t))) h = Normal 1%Z.
Proof.
  intros Hne Hs.
  assert (forall l t, all_ws l = true -> all_ws t = true ->
            result (wordCount (VString (l ++ s ++ t))) h = Normal 1%Z) as H.
  { intros l t Hl Ht. by rewrite wordCount_string, maximal_runs_single. }
  split; [|done]. specialize (H [] [] eq_refl eq_refl).
  by rewrite app_nil_l, app_nil_r in H.
Qed.

Lemma wordCount_single_word_witness :
  result (wordCount (VString (js "hello"))) [] = Normal 1%Z /\
  forall l t, all_ws l = true -> all_ws t = true ->
    result (wordCount (VString (l ++ js "hello" ++ t))) [] = Normal 1%Z.
Proof.
  apply (wordCount_single_word (js "hello") []); [discriminate|reflexivity].
Defined.

(** C7. Tokens are delimited by white space alone: a string that is not
    empty and holds punctuation only, a lone hyphen for one, counts as one
    word, and set between other words it adds one to their count. *)
Theorem wordCount_punctuation_token (s : jsstring) (h : heap) :
  s <> [] -> forallb is_punct s = true ->
  result (wordCount (VString s)) h = Normal 1%Z /\
  forall a b,
    result (wordCount (VString (a ++ [SPACE] ++ s ++ [SPACE] ++ b))) h =
    Normal (Z.of_nat (length (maximal_runs a) + 1 + length (maximal_runs b))).
Proof.
  intros Hne Hp. pose proof (punct_no_ws _ Hp) as Hs. split.
  - rewrite wordCount_string.
    replace s with ([] ++ s ++ []) by apply app_nil_r.
    by rewrite maximal_runs_single.
  - intros a b. rewrite wordCount_string. do 2 f_equal. unfold maximal_runs.
    rewrite runs_from_app_gap by done.
    rewrite runs_from_no_ws, app_nil_l by done.
    rewrite <- (app_nil_l ([SPACE] ++ b)), runs_from_app_gap by done.
    rewrite !length_app. simpl. destruct s; [done|]. simpl. lia.
Qed.

Lemma wordCount_punctuation_token_witness :
  result (wordCount (VString [HYPHEN])) [] = Normal 1%Z /\
  forall a b,
    result (wordCount (VString (a ++ [SPACE] ++ [HYPHEN] ++ [SPACE] ++ b))) [] =
    Normal (Z.of_nat (length (maximal_runs a) + 1 + length (maximal_runs b))).
Proof.
  apply (wordCount_punctuation_token [HYPHEN] []); [discriminate|reflexivity].
Defined.

(** C8. Each function is pure and deterministic: on the same input two
    invocations return the same result whatever the heaps they start on,
    and an invocation leaves every object of its heap as it was, adding
    only the regular expressions of its own. *)
Theorem functions_pure (text : value) (h1 h2 : heap) :
  (result (wordCount text) h1 = result (wordCount text) h2 /\
   exists ext, final_heap (wordCount text) h1 = h1 ++ ext) /\
  (result (charCount text) h1 = result (charCount text) h2 /\
   exists ext, final_heap (charCount text) h1 = h1 ++ ext) /\
  (result (readingTime text) h1 = result (readingTime text) h2 /\
   exists ext, final_heap (readingTime text) h1 = h1 ++ ext).
Proof.
  repeat split.
  - by rewrite !wordCount_result.
  - destruct (wordCount_run text h1) as [ext Hrun]. exists ext.
    unfold final_heap. by rewrite Hrun.
  - by rewrite !charCount_result.
  - destruct (charCount_run text h1) as [ext Hrun]. exists ext.
    unfold final_heap. by rewrite Hrun.
  - by rewrite !readingTime_result.
  - destruct (readingTime_run text h1) as [ext Hrun]. exists ext.
    unfold final_heap. by rewrite Hrun.
Qed.

(** C9. For every input the word count is at most the character count:
    every word holds a character that is not white space. *)
Theorem wordCount_le_charCount (text : value) (h : heap) :
  exists words chars : Z,
    result (wordCount text) h = Normal words /\
    result (charCount text) h = Normal chars /\
    (words <= chars)%Z.
Proof.
  do 2 eexists. split; [apply wordCount_result|].
  split; [apply charCount_result|].
  apply inj_le. destruct text as [ | |s]; simpl; [done..|].
  rewrite words_maximal_runs, remove_ws_length.
  apply (runs_from_le [] s).
Qed.

(** C10. For every input the reading time is 0 exactly when the word count
    is 0; an input with a word has a reading time of at least one minute. *)
Theorem readingTime_zero_iff_no_word (text : value) (h : heap) :
  exists words minutes : Z,
    result (wordCount text) h = Normal words /\
    result (readingTime text) h = Normal minutes /\
    (minutes = 0 <-> words = 0)%Z /\
    (1 <= words -> 1 <= minutes)%Z.
Proof.
  do 2 eexists. split; [apply wordCount_result|].
  split; [apply readingTime_result|].
  rewrite Math_ceil_quotient.
  pose proof (Z.div_mod (- Z.of_nat (length (words_of text))) 200 ltac:(lia)).
  pose proof (Z.mod_pos_bound (- Z.of_nat (length (words_of text))) 200 ltac:(lia)).
  lia.
Qed.

(** ** Further properties of the three functions *)

Section Joining.
Implicit Types (h : heap) (s a b g cur : jsstring).

Lemma runs_from_length_cur cur cur' s :
  nonempty cur = nonempty cur' ->
  length (runs_from cur s) = length (runs_from cur' s).
Proof. intros H. by rewrite !runs_from_starts, H. Qed.

Lemma runs_from_cur_length cur s :
  length (runs_from cur s) + Nat.b2n (nonempty cur && starts_word s) =
  Nat.b2n (nonempty cur) + length (runs_from [] s).
Proof.
  destruct s as [|c s].
  - rewrite runs_from_nil_length, andb_false_r. by destruct (nonempty cur).
  - simpl. destruct (is_ws c); simpl.
    + rewrite andb_false_r. destruct cur; simpl; lia.
    + rewrite andb_true_r.
      rewrite (runs_from_length_cur (cur ++ [c]) [c]) by (by destruct cur).
      destruct cur; simpl; lia.
Qed.

(** The runs of a concatenation: the run that ends [a] and the run that
    starts [b] become one. *)
Lemma runs_from_app_length cur a b :
  length (runs_from cur (a ++ b)) +
    Nat.b2n (negb (ends_ws (negb (nonempty cur)) a) && starts_word b) =
  length (runs_from cur a) + length (runs_from [] b).
Proof.
  revert cur. induction a as [|c a IH]; intros cur.
  - rewrite app_nil_l, runs_from_nil_length. simpl ends_ws.
    rewrite negb_involutive, runs_from_cur_length.
    by destruct (nonempty cur).
  - simpl. destruct (is_ws c) eqn:Hc.
    + specialize (IH []). simpl in IH. destruct cur; simpl; lia.
    + specialize (IH (cur ++ [c])).
      replace (nonempty (cur ++ [c])) with true in IH by (by destruct cur).
      done.
Qed.

Lemma maximal_runs_app a b :
  length (maximal_runs (a ++ b)) + Nat.b2n (ends_word a && starts_word b) =
  length (maximal_runs a) + length (maximal_runs b).
Proof. apply (runs_from_app_length [] a b). Qed.

Lemma runs_from_half cur s :
  2 * length (runs_from cur s) <= length s + (if nonempty cur then 2 else 1).
Proof.
  revert cur. induction s as [|c s IH]; intros cur.
  - rewrite runs_from_nil_length. simpl. destruct (nonempty cur); lia.
  - simpl. destruct (is_ws c).
    + specialize (IH []). simpl in IH. destruct cur; simpl; lia.
    + specialize (IH (cur ++ [c])).
      replace (nonempty (cur ++ [c])) with true in IH by (by destruct cur).
      destruct (nonempty cur); lia.
Qed.

Lemma count_non_ws_zero s : count_non_ws s = 0 <-> all_ws s = true.
Proof.
  split; [|apply count_non_ws_all_ws].
  induction s as [|c s IH]; simpl; [done|].
  destruct (is_ws c); [done|discriminate].
Qed.

Lemma maximal_runs_zero s : length (maximal_runs s) = 0 <-> all_ws s = true.
Proof.
  split; [|intros Hs; by rewrite maximal_runs_all_ws].
  intros H. apply count_non_ws_zero. rewrite <- remove_ws_length.
  rewrite <- maximal_runs_concat. by apply nil_length_inv in H as ->.
Qed.
End Joining.

(** X1. White space before and after a text does not change its word
    count, and neither does trimming it. *)
Theorem wordCount_ignores_padding (l s r : jsstring) (h : heap) :
  all_ws l = true -> all_ws r = true ->
  result (wordCount (VString (l ++ s ++ r))) h = result (wordCount (VString s)) h /\
  result (wordCount (VString (trim s))) h = result (wordCount (VString s)) h.
Proof.
  intros Hl Hr. rewrite !wordCount_string. split; do 3 f_equal.
  - unfold maximal_runs. by rewrite runs_from_ws_prefix, runs_from_ws_suffix.
  - apply maximal_runs_trim.
Qed.

Lemma wordCount_ignores_padding_witness :
  result (wordCount (VString ([SPACE; TAB] ++ js "hello world" ++ [LF]))) [] =
    result (wordCount (VString (js "hello world"))) [] /\
  result (wordCount (VString (trim (js "hello world")))) [] =
    result (wordCount (VString (js "hello world"))) [].
Proof.
  apply (wordCount_ignores_padding [SPACE; TAB] (js "hello world") [LF] []);
    reflexivity.
Defined.

(** X2. Two texts joined by white space have the word counts of both,
    added. *)
Theorem wordCount_joined (a g b : jsstring) (h : heap) :
  all_ws g = true -> g <> [] ->
  exists na nb : Z,
    result (wordCount (VString a)) h = Normal na /\
    result (wordCount (VString b)) h = Normal nb /\
    result (wordCount (VString (a ++ g ++ b))) h = Normal (na + nb)%Z.
Proof.
  intros Hg Hne. do 2 eexists. rewrite !wordCount_string.
  repeat split. f_equal. unfold maximal_runs.
  rewrite runs_from_app_gap, length_app by done. lia.
Qed.

Lemma wordCount_joined_witness :
  exists na nb : Z,
    result (wordCount (VString (js "The quick"))) [] = Normal na /\
    result (wordCount (VString (js "brown fox"))) [] = Normal nb /\
    result (wordCount (VString (js "The quick" ++ [SPACE; LF] ++ js "brown fox"))) [] =
      Normal (na + nb)%Z.
Proof.
  apply (wordCount_joined (js "The quick") [SPACE; LF] (js "brown fox") []);
    [reflexivity|discriminate].
Defined.

(** X3. Two texts joined with nothing between them have the word counts of
    both, added, less one when the first ends in a word and the second
    starts with one: the two become one word. *)
Theorem wordCount_concatenated (a b : jsstring) (h : heap) :
  exists na nb : Z,
    result (wordCount (VString a)) h = Normal na /\
    result (wordCount (VString b)) h = Normal nb /\
    result (wordCount (VString (a ++ b))) h =
      Normal (na + nb - Z.b2z (ends_word a && starts_word b))%Z.
Proof.
  do 2 eexists. rewrite !wordCount_string. repeat split. f_equal.
  pose proof (maximal_runs_app a b) as H.
  destruct (ends_word a && starts_word b); simpl in *; lia.
Qed.

(** X4. A text of [n] code units has at most [(n + 1) / 2] words. *)
Theorem wordCount_at_most_half_length (s : jsstring) (h : heap) :
  exists n : Z,
    result (wordCount (VString s)) h = Normal n /\
    (2 * n <= Z.of_nat (length s) + 1)%Z.
Proof.
  eexists. rewrite wordCount_string. split; [done|].
  pose proof (runs_from_half [] s) as H. simpl in H. unfold maximal_runs. lia.
Qed.

(** X5. On strings both counts are 0 on blank text only: a text with a
    character that is not white space has at least one word and one
    character counted. *)
Theorem counts_zero_iff_blank (s : jsstring) (h : heap) :
  (result (wordCount (VString s)) h = Normal 0%Z <-> all_ws s = true) /\
  (result (charCount (VString s)) h = Normal 0%Z <-> all_ws s = true).
Proof.
  rewrite wordCount_string, charCount_string. split.
  - rewrite <- maximal_runs_zero. split; [intros [= H]; lia|by intros ->].
  - rewrite <- count_non_ws_zero. split; [intros [= H]; lia|by intros ->].
Qed.

Section Pieces.
Implicit Types (h : heap) (s a b cur : jsstring).

Lemma split_on_whitespace_result s h :
  result (split_on_whitespace (VString s)) h = Normal (split_pieces [] false s).
Proof.
  unfold result, split_on_whitespace.
  rewrite (bind_run _ _ _ _ _ (RegExpCreate_run _ _ _ _)).
  unfold String_split. cbn [this_string]. unfold bind at 1. cbn [ret].
  by destruct (RegExp_split_run (h ++ [RegExp pat_s_plus false false 0])
                 (length h) _ s (lookup_created _ _) eq_refl) as [k ->].
Qed.

Lemma remove_whitespace_result s h :
  result (remove_whitespace (VString s)) h = Normal (remove_ws s).
Proof.
  unfold result, remove_whitespace.
  rewrite (bind_run _ _ _ _ _ (RegExpCreate_run _ _ _ _)).
  unfold String_replace. cbn [this_string]. unfold bind at 1. cbn [ret].
  by rewrite (RegExp_replace_run _ _ _ s
                (lookup_created h (RegExp pat_s true false 0)) eq_refl eq_refl eq_refl).
Qed.

(** The pieces of [split]: one for each run, and one more, empty, where the
    text ends in white space. *)
Lemma split_pieces_length cur sk s :
  (sk = true -> cur = []) -> (sk = false -> cur <> []) ->
  length (split_pieces cur sk s) =
  length (runs_from cur s) + Nat.b2n (ends_ws sk s).
Proof.
  revert cur sk. induction s as [|c s IH]; intros cur sk Ht Hf; simpl.
  - destruct sk; [by rewrite Ht|]. specialize (Hf eq_refl). by destruct cur.
  - destruct (is_ws c).
    + destruct sk.
      * rewrite (Ht eq_refl). by apply IH.
      * specialize (Hf eq_refl). simpl. rewrite IH by done. by destruct cur.
    + apply IH; [done|]. intros _. by destruct cur.
Qed.

Lemma split_pieces_concat cur sk s :
  (sk = true -> cur = []) ->
  concat (split_pieces cur sk s) = cur ++ remove_ws s.
Proof.
  revert cur sk. induction s as [|c s IH]; intros cur sk Ht; simpl.
  - by rewrite app_nil_r.
  - destruct (is_ws c).
    + destruct sk; [rewrite (Ht eq_refl); by apply IH|].
      simpl. by rewrite IH.
    + rewrite IH by done. by rewrite <- app_assoc.
Qed.

Lemma remove_ws_app a b : remove_ws (a ++ b) = remove_ws a ++ remove_ws b.
Proof.
  induction a as [|c a IH]; simpl; [done|].
  destruct (is_ws c); simpl; by rewrite IH.
Qed.

Lemma remove_ws_trim s : remove_ws (trim s) = remove_ws s.
Proof.
  destruct (trim_split s) as (l & r & Hs & Hl & Hr).
  rewrite Hs at 2. rewrite !remove_ws_app, (remove_ws_all_ws l), (remove_ws_all_ws r) by done.
  by rewrite app_nil_r.
Qed.

Lemma count_non_ws_app a b : count_non_ws (a ++ b) = count_non_ws a + count_non_ws b.
Proof. by rewrite <- !remove_ws_length, remove_ws_app, length_app. Qed.

Lemma count_non_ws_filter s :
  count_non_ws s + length (List.filter is_ws s) = length s.
Proof.
  induction s as [|c s IH]; simpl; [done|].
  destruct (is_ws c); simpl; lia.
Qed.

Lemma filter_is_ws_nil s : length (List.filter is_ws s) = 0 <-> no_ws s = true.
Proof.
  induction s as [|c s IH]; simpl; [done|].
  destruct (is_ws c); simpl; [|done]. split; [lia|done].
Qed.

Lemma Math_ceil_bounds (n : Z) :
  (200 * (Math_ceil (inject_Z n / inject_Z 200) - 1) < n <=
   200 * Math_ceil (inject_Z n / inject_Z 200))%Z.
Proof.
  rewrite Math_ceil_quotient.
  pose proof (Z.div_mod (- n) 200 ltac:(lia)).
  pose proof (Z.mod_pos_bound (- n) 200 ltac:(lia)).
  lia.
Qed.
End Pieces.

(** X6. What the trimming in [wordCount] is for: on the text as it is,
    [split(/\s+/)] returns one piece for each word, one more when the text
    starts with white space, one more when it ends with it, and one piece
    for the empty text. *)
Theorem split_counts_padding (s : jsstring) (h : heap) :
  exists (A : list jsstring) (n : Z),
    result (split_on_whitespace (VString s)) h = Normal A /\
    result (wordCount (VString s)) h = Normal n /\
    Z.of_nat (length A) =
      (n + Z.b2z (starts_ws s) + Z.b2z (ends_ws false s)
       + Z.b2z (Nat.eqb (length s) 0))%Z.
Proof.
  do 2 eexists. rewrite split_on_whitespace_result, wordCount_string.
  repeat split. unfold maximal_runs.
  destruct s as [|c s]; [done|]. cbn [split_pieces runs_from starts_ws ends_ws].
  destruct (is_ws c) eqn:Hc.
  - cbn [length]. rewrite split_pieces_length by done.
    destruct (ends_ws true s); simpl; lia.
  - rewrite split_pieces_length by done.
    destruct (ends_ws false s); simpl; lia.
Qed.

(** X7. The character count of a concatenation is the sum of the two
    character counts, so white space put anywhere into a text does not
    change it. *)
Theorem charCount_concatenated (a b : jsstring) (h : heap) :
  (exists na nb : Z,
     result (charCount (VString a)) h = Normal na /\
     result (charCount (VString b)) h = Normal nb /\
     result (charCount (VString (a ++ b))) h = Normal (na + nb)%Z) /\
  (forall w, all_ws w = true ->
     result (charCount (VString (a ++ w ++ b))) h =
     result (charCount (VString (a ++ b))) h).
Proof.
  split.
  - do 2 eexists. rewrite !charCount_string. repeat split.
    rewrite count_non_ws_app. f_equal. lia.
  - intros w Hw. rewrite !charCount_string, !count_non_ws_app.
    by rewrite (count_non_ws_all_ws w).
Qed.

(** X8. The character count and the number of white-space characters add
    up to the length of the string; the count is the length exactly when
    the string holds no white space. *)
Theorem charCount_and_length (s : jsstring) (h : heap) :
  exists n : Z,
    result (charCount (VString s)) h = Normal n /\
    (n + Z.of_nat (length (List.filter is_ws s)) = Z.of_nat (length s))%Z /\
    (n = Z.of_nat (length s) <-> no_ws s = true).
Proof.
  eexists. rewrite charCount_string. split; [done|].
  pose proof (count_non_ws_filter s) as H. split; [lia|].
  rewrite <- filter_is_ws_nil. lia.
Qed.

(** X9. The pieces [wordCount] counts, put together, are the text
    [charCount] measures: the character count is the total length of the
    words. *)
Theorem charCount_is_length_of_words (s : jsstring) (h : heap) :
  exists (A : list jsstring) (t : jsstring),
    result (u <- String_trim (VString s) ;; split_on_whitespace (VString u)) h =
      Normal A /\
    result (remove_whitespace (VString s)) h = Normal t /\
    concat A = t /\
    result (charCount (VString s)) h = Normal (Z.of_nat (length (concat A))).
Proof.
  exists (split_pieces [] false (trim s)), (remove_ws s).
  split; [|split; [apply remove_whitespace_result|]].
  - unfold result, String_trim. cbn [this_string]. unfold bind at 1 2. cbn [ret].
    apply split_on_whitespace_result.
  - rewrite split_pieces_concat, app_nil_l, remove_ws_trim by done.
    split; [done|]. by rewrite charCount_string, remove_ws_length.
Qed.

Section TestTexts.
Implicit Types (h : heap) (s cur : jsstring) (n : nat).

Lemma maximal_runs_repeat n :
  length (maximal_runs (String_repeat (js "word ") n)) = n.
Proof.
  unfold maximal_runs. induction n as [|n IH]; [done|].
  cbn [String_repeat].
  change (js "word ") with (js "word" ++ [SPACE]) at 1. rewrite <- app_assoc.
  rewrite runs_from_no_ws by done. cbn [app].
  rewrite (runs_from_ws _ SPACE) by done.
  rewrite length_app, IH. done.
Qed.

Lemma count_non_ws_repeat n :
  count_non_ws (String_repeat (js "word ") n) = 4 * n.
Proof.
  induction n as [|n IH]; [done|].
  cbn [String_repeat]. rewrite count_non_ws_app, IH.
  change (count_non_ws (js "word ")) with 4. lia.
Qed.

(** The word count reads a text through [is_ws] alone. *)
Lemma runs_from_same_ws cur cur' s s' :
  nonempty cur = nonempty cur' -> map is_ws s = map is_ws s' ->
  length (runs_from cur s) = length (runs_from cur' s').
Proof.
  revert cur cur' s'. induction s as [|c s IH]; intros cur cur' [|c' s'] Hcur Hs;
    try discriminate.
  - by rewrite !runs_from_nil_length, Hcur.
  - simpl in Hs. injection Hs as Hc Hs. simpl. rewrite <- Hc.
    destruct (is_ws c).
    + destruct cur, cur'; try discriminate; simpl; by rewrite (IH [] [] s').
    + apply IH; [|done]. by destruct cur, cur'.
Qed.

Lemma count_non_ws_same_ws s s' :
  map is_ws s = map is_ws s' -> count_non_ws s = count_non_ws s'.
Proof.
  revert s'. induction s as [|c s IH]; intros [|c' s'] Hs; try discriminate; [done|].
  simpl in Hs. injection Hs as Hc Hs. simpl. rewrite <- Hc, (IH s' Hs). done.
Qed.
End TestTexts.

(** X10. More words never take less time to read, and the minutes never
    exceed the number of words. *)
Theorem readingTime_monotone (a b : value) (h : heap) :
  exists wa wb ra rb : Z,
    result (wordCount a) h = Normal wa /\
    result (wordCount b) h = Normal wb /\
    result (readingTime a) h = Normal ra /\
    result (readingTime b) h = Normal rb /\
    (wa <= wb -> ra <= rb)%Z /\
    (ra <= wa)%Z.
Proof.
  do 4 eexists. rewrite !wordCount_result, !readingTime_result.
  repeat split.
  - pose proof (Math_ceil_bounds (Z.of_nat (length (words_of a)))).
    pose proof (Math_ceil_bounds (Z.of_nat (length (words_of b)))).
    lia.
  - pose proof (Math_ceil_bounds (Z.of_nat (length (words_of a)))). lia.
Qed.

(** X11. Two texts joined by white space take at least as long to read as
    the longer of the two, and at most as long as both read one after the
    other. *)
Theorem readingTime_joined (a g b : jsstring) (h : heap) :
  all_ws g = true -> g <> [] ->
  exists ra rb r : Z,
    result (readingTime (VString a)) h = Normal ra /\
    result (readingTime (VString b)) h = Normal rb /\
    result (readingTime (VString (a ++ g ++ b))) h = Normal r /\
    (Z.max ra rb <= r <= ra + rb)%Z.
Proof.
  intros Hg Hne. do 3 eexists. rewrite !readingTime_result.
  repeat split; cbn [words_of]; rewrite !words_maximal_runs; unfold maximal_runs;
    rewrite runs_from_app_gap, length_app by done;
    pose proof (Math_ceil_bounds (Z.of_nat (length (runs_from [] a))));
    pose proof (Math_ceil_bounds (Z.of_nat (length (runs_from [] b))));
    pose proof (Math_ceil_bounds
      (Z.of_nat (length (runs_from [] a) + length (runs_from [] b))));
    lia.
Qed.

Lemma readingTime_joined_witness :
  exists ra rb r : Z,
    result (readingTime (VString (js "The quick"))) [] = Normal ra /\
    result (readingTime (VString (js "brown fox"))) [] = Normal rb /\
    result (readingTime (VString (js "The quick" ++ [SPACE] ++ js "brown fox"))) [] =
      Normal r /\
    (Z.max ra rb <= r <= ra + rb)%Z.
Proof.
  apply (readingTime_joined (js "The quick") [SPACE] (js "brown fox") []);
    [reflexivity|discriminate].
Defined.

(** X12. The text the tests of [readingTime] build, ['word '] repeated [n]
    times and trimmed, has [n] words and [4 * n] characters counted, and
    its reading time is the ceiling of [n / 200], for every [n]. *)
Theorem test_text_counts (n : nat) (h : heap) :
  result (wordCount (VString (words_text n))) h = Normal (Z.of_nat n) /\
  result (charCount (VString (words_text n))) h = Normal (4 * Z.of_nat n)%Z /\
  exists minutes : Z,
    result (readingTime (VString (words_text n))) h = Normal minutes /\
    is_ceiling_of_quotient minutes (Z.of_nat n) 200.
Proof.
  assert (length (words_of (VString (words_text n))) = n) as Hn.
  { cbn [words_of]. rewrite words_maximal_runs. unfold words_text.
    by rewrite maximal_runs_trim, maximal_runs_repeat. }
  split; [|split].
  - by rewrite wordCount_result, Hn.
  - rewrite charCount_string. unfold words_text.
    rewrite <- remove_ws_length, remove_ws_trim, remove_ws_length, count_non_ws_repeat.
    f_equal. lia.
  - eexists. rewrite readingTime_result, Hn. split; [done|].
    apply Math_ceil_is_ceiling.
Qed.

(** X13. Both counts read a text through its white space alone: two texts
    with white space at the same places have the same word count and the
    same character count, whatever the other characters are. *)
Theorem counts_depend_on_whitespace_only (s s' : jsstring) (h : heap) :
  map is_ws s = map is_ws s' ->
  result (wordCount (VString s)) h = result (wordCount (VString s')) h /\
  result (charCount (VString s)) h = result (charCount (VString s')) h.
Proof.
  intros Hs. rewrite !wordCount_string, !charCount_string.
  unfold maximal_runs.
  by rewrite (runs_from_same_ws [] [] s s'), (count_non_ws_same_ws s s').
Qed.

Lemma counts_depend_on_whitespace_only_witness :
  result (wordCount (VString (js "well - no"))) [] =
    result (wordCount (VString (js "a1b2 ? 42"))) [] /\
  result (charCount (VString (js "well - no"))) [] =
    result (charCount (VString (js "a1b2 ? 42"))) [].
Proof.
  apply (counts_depend_on_whitespace_only (js "well - no") (js "a1b2 ? 42") []).
  reflexivity.
Defined.
